(** * Equivalent width of the H-beta line

    A shallow embedding of the equivalent-width measurement performed by
    [Balmer_Decrement_Tutorial.ipynb] (cells [4f5b037a], [ef58b8fe] and
    [0abc6f5a]) together with the parts of numpy and scipy those cells call.

    Numbers.  The notebook computes on IEEE-754 doubles.  Here a double is
    either a rational (a finite value; arithmetic on finite values is exact
    and keeps fractions in lowest terms: rounding, overflow and the sign of
    zero are not modelled) or one of the
    three special values that numpy produces instead of raising: the two
    infinities and NaN.  Exceptions are explicit: every operation that can
    raise returns a [result]. *)

From Stdlib Require Import QArith ZArith List Bool Arith Lia Lqa Setoid Morphisms
  Sorted.
From Stdlib Require String.
Import ListNotations.

(** ** Python exceptions and results *)

(** The [ValueError]s of [scipy.interpolate.CubicSpline], by message. *)
Inductive message : Type :=
| TooFewElements     (* `x` must contain at least 2 elements. *)
| LengthMismatch     (* The length of `y` along `axis`=0 doesn't match the length of `x` *)
| NonFiniteX         (* `x` must contain only finite values. *)
| NonFiniteY         (* `y` must contain only finite values. *)
| NotIncreasing.     (* `x` must be strictly increasing sequence. *)

Inductive exn : Type :=
| NameError                (* name is not defined *)
| IndexError               (* boolean index did not match indexed array *)
| ValueError (m : message).

Inductive result (A : Type) : Type :=
| Value (a : A)
| Raise (e : exn).

Arguments Value {A} a.
Arguments Raise {A} e.

Definition bind {A B : Type} (r : result A) (k : A -> result B) : result B :=
  match r with
  | Value a => k a
  | Raise e => Raise e
  end.

Notation "x <- r ;; k" := (bind r (fun x => k))
  (at level 61, r at next level, right associativity).

(** Reading a global name. *)
Definition lookup {A : Type} (o : option A) : result A :=
  match o with
  | Some a => Value a
  | None => Raise NameError
  end.

(** ** Exact arithmetic on finite values

    The four operations on rationals, with the result in lowest terms. *)

Definition radd (x y : Q) : Q := Qred (x + y).
Definition rsub (x y : Q) : Q := Qred (x - y).
Definition rmul (x y : Q) : Q := Qred (x * y).
Definition rdiv (x y : Q) : Q := Qred (x / y).

Declare Scope exact_scope.
Delimit Scope exact_scope with exact.
Arguments radd (x y)%_exact.
Arguments rsub (x y)%_exact.
Arguments rmul (x y)%_exact.
Arguments rdiv (x y)%_exact.
Infix "+" := radd : exact_scope.
Infix "-" := rsub : exact_scope.
Infix "*" := rmul : exact_scope.
Infix "/" := rdiv : exact_scope.

(** ** numpy *)

Module np.

(** A double: a finite value or one of the IEEE special values. *)
Inductive float64 : Type :=
| Fin (q : Q)
| PInf
| NInf
| NaN.

Definition isfinite (a : float64) : bool :=
  match a with Fin _ => true | _ => false end.

Definition isnan (a : float64) : bool :=
  match a with NaN => true | _ => false end.

(** The sign of a double that is not NaN. *)
Definition sign (a : float64) : comparison :=
  match a with
  | Fin q => q ?= 0
  | PInf => Gt
  | NInf => Lt
  | NaN => Eq
  end.

Definition sign_mul (s t : comparison) : comparison :=
  match s, t with
  | Eq, _ | _, Eq => Eq
  | Gt, Gt | Lt, Lt => Gt
  | _, _ => Lt
  end.

(** The infinity of a given sign; a sign of zero is the invalid operation
    (0 * inf, 0 / 0), whose value is NaN. *)
Definition signed_inf (s : comparison) : float64 :=
  match s with
  | Gt => PInf
  | Lt => NInf
  | Eq => NaN
  end.

Definition negative (a : float64) : float64 :=
  match a with
  | Fin q => Fin (- q)
  | PInf => NInf
  | NInf => PInf
  | NaN => NaN
  end.

Definition add (a b : float64) : float64 :=
  match a, b with
  | NaN, _ | _, NaN => NaN
  | Fin x, Fin y => Fin (radd x y)
  | PInf, NInf | NInf, PInf => NaN
  | PInf, _ | _, PInf => PInf
  | NInf, _ | _, NInf => NInf
  end.

Definition subtract (a b : float64) : float64 := add a (negative b).

Definition multiply (a b : float64) : float64 :=
  match a, b with
  | NaN, _ | _, NaN => NaN
  | Fin x, Fin y => Fin (rmul x y)
  | _, _ => signed_inf (sign_mul (sign a) (sign b))
  end.

(** True division.  numpy does not raise on a zero divisor: it warns and
    returns an infinity, or NaN for 0 / 0. *)
Definition divide (a b : float64) : float64 :=
  match a, b with
  | NaN, _ | _, NaN => NaN
  | Fin x, Fin y =>
      if Qeq_bool y 0 then signed_inf (x ?= 0) else Fin (rdiv x y)
  | Fin _, _ => Fin 0
  | _, Fin y =>
      signed_inf (sign_mul (sign a) (if Qeq_bool y 0 then Gt else y ?= 0))
  | _, _ => NaN
  end.

(** Ordered comparisons; every comparison with NaN is false. *)
Definition less (a b : float64) : bool :=
  match a, b with
  | NaN, _ | _, NaN => false
  | Fin x, Fin y => match x ?= y with Lt => true | _ => false end
  | NInf, NInf | PInf, _ | _, NInf => false
  | _, _ => true
  end.

Definition greater (a b : float64) : bool := less b a.

Definition less_equal (a b : float64) : bool :=
  match a, b with
  | NaN, _ | _, NaN => false
  | Fin x, Fin y => match x ?= y with Gt => false | _ => true end
  | NInf, _ | _, PInf => true
  | _, _ => false
  end.

Definition ndarray : Type := list float64.

Fixpoint zip_with {A B C : Type} (f : A -> B -> C) (a : list A) (b : list B)
  : list C :=
  match a, b with
  | x :: a', y :: b' => f x y :: zip_with f a' b'
  | _, _ => []
  end.

(** [a > c], [a < c] and [a / c] against a scalar, elementwise. *)
Definition greater_s (a : ndarray) (c : float64) : list bool :=
  map (fun v => greater v c) a.
Definition less_s (a : ndarray) (c : float64) : list bool :=
  map (fun v => less v c) a.
Definition divide_s (a : ndarray) (c : float64) : ndarray :=
  map (fun v => divide v c) a.

(** [m & n] and [m | n] on boolean arrays of one shape. *)
Definition logical_and (m n : list bool) : list bool := zip_with andb m n.
Definition logical_or (m n : list bool) : list bool := zip_with orb m n.

(** Elementwise arithmetic on arrays of one shape.  numpy raises when two
    shapes cannot be broadcast; the cells only combine arrays selected by
    one mask from arrays of one length, so [zip_with] never truncates
    there. *)
Definition subtract_a (a b : ndarray) : ndarray := zip_with subtract a b.
Definition add_a (a b : ndarray) : ndarray := zip_with add a b.
Definition multiply_a (a b : ndarray) : ndarray := zip_with multiply a b.
Definition divide_a (a b : ndarray) : ndarray := zip_with divide a b.

(** Boolean-mask indexing [a[mask]]: the selected elements, in order, in a
    new array; a mask of another length raises. *)
Fixpoint compress {A : Type} (mask : list bool) (a : list A) : list A :=
  match mask, a with
  | m :: mask', v :: a' =>
      if m then v :: compress mask' a' else compress mask' a'
  | _, _ => []
  end.

Definition getitem (a : ndarray) (mask : list bool) : result ndarray :=
  if Nat.eqb (length mask) (length a) then Value (compress mask a)
  else Raise IndexError.

(** [np.diff]: [a[1:] - a[:-1]]. *)
Fixpoint diff (a : ndarray) : ndarray :=
  match a with
  | x0 :: tl =>
      match tl with
      | x1 :: _ => subtract x1 x0 :: diff tl
      | [] => []
      end
  | [] => []
  end.

(** [ndarray.sum]; the empty sum is 0.0.  numpy adds pairwise; in exact
    arithmetic, and with infinities and NaN absorbing, the order of the
    additions does not change the sum. *)
Definition sum (a : ndarray) : float64 := fold_right add (Fin 0) a.

(** [np.trapz(y, x=x)]:
    [d = diff(x); ret = (d * (y[1:] + y[:-1]) / 2.0).sum()]. *)
Definition trapz (y x : ndarray) : float64 :=
  let d := diff x in
  sum (divide_s (multiply_a d (add_a (tl y) (removelast y))) (Fin 2)).

End np.

Import np.

(** ** scipy.interpolate

    [CubicSpline] and the piecewise polynomial it builds are library code.
    They are modelled here after scipy's [_cubic.py] and [_ppoly.pyx]: the
    validation of [prepare_input] in its order, the default boundary
    condition ['not-a-knot'] with its special cases for two and three points,
    the Hermite coefficients of [CubicHermiteSpline], and evaluation with the
    default [extrapolate=True], under which a point outside the breakpoints is
    evaluated on the first or last piece and nothing is raised.  scipy solves
    the tridiagonal system for the derivatives with LAPACK; in exact
    arithmetic the elimination below computes the same solution.  scipy
    also raises a [ValueError] when the derivatives it computed are not
    finite; on finite input that takes an overflow, which exact arithmetic
    does not have, so [CubicSpline] below has no such branch.  The
    properties of the measurement are therefore stated for a spline that
    has been built, [fit_continuum ... = Value p], wherever the
    construction itself is not the subject. *)

Module scipy.

Local Open Scope exact_scope.

Definition coeff : Type := (Q * Q * Q * Q)%type.

(** [x]: the breakpoints; [c]: per interval, the coefficients
    [c[0], c[1], c[2], c[3]] of the local cubic, highest power first. *)
Record PPoly : Type := mkPPoly { x : list Q; c : list coeff }.

Fixpoint as_finite (a : ndarray) : option (list Q) :=
  match a with
  | [] => Some []
  | Fin q :: a' =>
      match as_finite a' with
      | Some l => Some (q :: l)
      | None => None
      end
  | _ :: _ => None
  end.

Fixpoint diffQ (a : list Q) : list Q :=
  match a with
  | x0 :: tl =>
      match tl with
      | x1 :: _ => (x1 - x0) :: diffQ tl
      | [] => []
      end
  | [] => []
  end.

Definition Qpositive (q : Q) : bool :=
  match 0 ?= q with Lt => true | _ => false end.

(** [not np.any(dx <= 0)] *)
Definition strictly_increasing (xs : list Q) : bool :=
  forallb Qpositive (diffQ xs).

(** *** The tridiagonal system for the derivatives at the breakpoints *)

(** A row [(l, d, u, b)]: sub-diagonal, diagonal, super-diagonal entry and
    right-hand side. *)
Definition row : Type := (Q * Q * Q * Q)%type.

(** Forward elimination; [cp] and [dp] are the normalised super-diagonal
    entry and right-hand side of the row above. *)
Fixpoint eliminate (rows : list row) (cp dp : Q) : list (Q * Q) :=
  match rows with
  | [] => []
  | (l, d, u, b) :: rest =>
      let m := d - l * cp in
      let c' := u / m in
      let d' := (b - l * dp) / m in
      (c', d') :: eliminate rest c' d'
  end.

Fixpoint back_substitute (cd : list (Q * Q)) : list Q :=
  match cd with
  | [] => []
  | (c', d') :: rest =>
      match back_substitute rest with
      | [] => [d']
      | (s1 :: _) as ss => (d' - c' * s1) :: ss
      end
  end.

Definition solve_banded (rows : list row) : list Q :=
  back_substitute (eliminate rows 0 0).

(** Rows [i = 1 .. n-2]:
    [dx[i] * s[i-1] + 2 * (dx[i-1] + dx[i]) * s[i] + dx[i-1] * s[i+1]
     = 3 * (dx[i] * slope[i-1] + dx[i-1] * slope[i])]. *)
Fixpoint interior_rows (dx slope : list Q) : list row :=
  match dx, slope with
  | h0 :: dx', m0 :: slope' =>
      match dx', slope' with
      | h1 :: _, m1 :: _ =>
          (h1, 2 * (h0 + h1), h0, 3 * (h1 * m0 + h0 * m1))
            :: interior_rows dx' slope'
      | _, _ => []
      end
  | _, _ => []
  end.

(** The 'not-a-knot' condition at the start, for [n > 3]. *)
Definition start_row (xs dx slope : list Q) : row :=
  let d := nth 2 xs 0 - nth 0 xs 0 in
  let dx0 := nth 0 dx 0 in
  let dx1 := nth 1 dx 0 in
  (0, dx1, d,
   ((dx0 + 2 * d) * dx1 * nth 0 slope 0 + dx0 * dx0 * nth 1 slope 0) / d).

(** The 'not-a-knot' condition at the end, for [n > 3]. *)
Definition end_row (xs dx slope : list Q) : row :=
  let n := length xs in
  let d := nth (n - 1) xs 0 - nth (n - 3) xs 0 in
  let dxl := nth (n - 2) dx 0 in
  let dxp := nth (n - 3) dx 0 in
  (d, dxp, 0,
   (dxl * dxl * nth (n - 3) slope 0 + (2 * d + dxl) * dxp * nth (n - 2) slope 0)
     / d).

(** For [n = 3] both conditions coincide and scipy fits the parabola
    through the three points. *)
Definition parabola_rows (dx slope : list Q) : list row :=
  let dx0 := nth 0 dx 0 in
  let dx1 := nth 1 dx 0 in
  let m0 := nth 0 slope 0 in
  let m1 := nth 1 slope 0 in
  [ (0, 1, 1, 2 * m0);
    (dx1, 2 * (dx0 + dx1), dx0, 3 * (dx0 * m1 + dx1 * m0));
    (1, 1, 0, 2 * m1) ].

(** The derivatives [s] at the breakpoints. *)
Definition derivatives (xs dx slope : list Q) : list Q :=
  match length xs with
  | 2%nat => [nth 0 slope 0; nth 0 slope 0]
  | 3%nat => solve_banded (parabola_rows dx slope)
  | _ =>
      solve_banded
        (start_row xs dx slope :: interior_rows dx slope
           ++ [end_row xs dx slope])
  end.

(** *** Hermite form, as in [CubicHermiteSpline]:
    [t = (dydx[:-1] + dydx[1:] - 2 * slope) / dx;
     c[0] = t / dx; c[1] = (slope - dydx[:-1]) / dx - t;
     c[2] = dydx[:-1]; c[3] = y[:-1]]. *)
Fixpoint hermite (dx slope dydx ys : list Q) : list coeff :=
  match dx, slope, dydx, ys with
  | h :: dx', m :: slope', s0 :: dydx', y0 :: ys' =>
      match dydx' with
      | s1 :: _ =>
          let t := (s0 + s1 - 2 * m) / h in
          (t / h, (m - s0) / h - t, s0, y0) :: hermite dx' slope' dydx' ys'
      | [] => []
      end
  | _, _, _, _ => []
  end.

Definition spline (xs ys : list Q) : PPoly :=
  let dx := diffQ xs in
  let slope := zip_with rdiv (diffQ ys) dx in
  let s := derivatives xs dx slope in
  mkPPoly xs (hermite dx slope s ys).

(** [CubicSpline(x, y)] with the default [bc_type] and [extrapolate]. *)
Definition CubicSpline (xa ya : ndarray) : result PPoly :=
  if Nat.ltb (length xa) 2 then Raise (ValueError TooFewElements)
  else if negb (Nat.eqb (length xa) (length ya))
  then Raise (ValueError LengthMismatch)
  else
    match as_finite xa with
    | None => Raise (ValueError NonFiniteX)
    | Some xs =>
        match as_finite ya with
        | None => Raise (ValueError NonFiniteY)
        | Some ys =>
            if strictly_increasing xs then Value (spline xs ys)
            else Raise (ValueError NotIncreasing)
        end
    end.

(** *** Evaluation *)

(** The index of the piece used at [v], for [v] not NaN: the interval
    [x[i] <= v < x[i+1]], closed on the right at the last breakpoint;
    the first piece below the range and the last one above it. *)
Fixpoint find_interval (xs : list Q) (v : float64) : nat :=
  match xs with
  | _ :: tl =>
      match tl with
      | x1 :: _ :: _ =>
          if less_equal (Fin x1) v then S (find_interval tl v) else 0%nat
      | _ => 0%nat
      end
  | [] => 0%nat
  end.

(** [evaluate_poly1]: [res = 0; z = 1;
    for kp in 0..3: res = res + c[3 - kp] * z; z *= s]. *)
Definition evaluate_poly1 (s : float64) (k : coeff) : float64 :=
  let '(c0, c1, c2, c3) := k in
  let z0 := Fin 1 in
  let r0 := add (Fin 0) (multiply (Fin c3) z0) in
  let z1 := multiply z0 s in
  let r1 := add r0 (multiply (Fin c2) z1) in
  let z2 := multiply z1 s in
  let r2 := add r1 (multiply (Fin c1) z2) in
  let z3 := multiply z2 s in
  add r2 (multiply (Fin c0) z3).

Definition evaluate (p : PPoly) (v : float64) : float64 :=
  if isnan v then NaN
  else
    let i := find_interval (x p) v in
    evaluate_poly1 (subtract v (Fin (nth i (x p) 0)))
      (nth i (c p) (0, 0, 0, 0)).

(** [cs(xp)] on an array. *)
Definition call (p : PPoly) (xp : ndarray) : ndarray := map (evaluate p) xp.

End scipy.

Import scipy.

(** ** The notebook *)

Module Notebook.

(** The global namespace of the kernel: the spectrum loaded by the first
    cells, the redshift, and the names the three measurement cells bind
    ([None]: not bound yet).  A cell reads names and rebinds names; the
    arrays themselves are never written in place. *)
Record namespace : Type := mkNamespace {
  wave : ndarray;
  flux : ndarray;
  z : float64;
  restwave : option ndarray;
  iwave : option (list bool);
  iwave_noline : option (list bool);
  cs : option PPoly;
  iwave_lineonly : option (list bool);
  linesub : option ndarray;
  ew : option float64
}.

(** [z = 0.05217] *)
Definition z_host : float64 := Fin (5217 # 100000).

(** The namespace after the spectrum is loaded and [z] is set. *)
Definition loaded (w f : ndarray) : namespace :=
  mkNamespace w f z_host None None None None None None None.

(** [(a > lo) & (a < hi)] *)
Definition window (lo hi : Q) (a : ndarray) : list bool :=
  logical_and (greater_s a (Fin lo)) (less_s a (Fin hi)).

(** [restwave = wave/(1+z)] *)
Definition rest_frame (w : ndarray) (z0 : float64) : ndarray :=
  divide_s w (add (Fin 1) z0).

(** [iwave = (restwave > 4800) & (restwave < 4900)] *)
Definition mask_iwave (rw : ndarray) : list bool := window 4800 4900 rw.

(** [iwave_noline = ((restwave > 4800) & (restwave < 4858))
                    | ((restwave > 4865) & (restwave < 4900))] *)
Definition mask_noline (rw : ndarray) : list bool :=
  logical_or (window 4800 4858 rw) (window 4865 4900 rw).

(** [iwave_lineonly = (restwave > 4850) & (restwave < 4870)] *)
Definition mask_lineonly (rw : ndarray) : list bool := window 4850 4870 rw.

(** Cell [4f5b037a].  The arguments of [plt.plot] are evaluated; the plot
    itself binds nothing. *)
Definition cell_rest_frame (ns : namespace) : result namespace :=
  let rw := rest_frame (wave ns) (z ns) in
  let iw := mask_iwave rw in
  _ <- getitem rw iw ;;
  _ <- getitem (flux ns) iw ;;
  Value (mkNamespace (wave ns) (flux ns) (z ns) (Some rw) (Some iw)
           (iwave_noline ns) (cs ns) (iwave_lineonly ns) (linesub ns)
           (ew ns)).

(** [cs = CubicSpline(restwave[iwave_noline], flux[iwave_noline])] *)
Definition fit_continuum (rw fl : ndarray) : result PPoly :=
  let m := mask_noline rw in
  xa <- getitem rw m ;;
  ya <- getitem fl m ;;
  CubicSpline xa ya.

(** Cell [ef58b8fe]. *)
Definition cell_continuum (ns : namespace) : result namespace :=
  rw <- lookup (restwave ns) ;;
  let m := mask_noline rw in
  p <- fit_continuum rw (flux ns) ;;
  iw <- lookup (iwave ns) ;;
  _ <- getitem rw iw ;;
  _ <- getitem (flux ns) iw ;;
  _ <- getitem rw iw ;;
  Value (mkNamespace (wave ns) (flux ns) (z ns) (restwave ns) (iwave ns)
           (Some m) (Some p) (iwave_lineonly ns) (linesub ns) (ew ns)).

(** [linesub = flux[iwave_lineonly] - cs(restwave[iwave_lineonly])]: the
    left operand is evaluated first, then the name [cs] is read, then its
    argument. *)
Definition line_excess (rw fl : ndarray) (fitted : option PPoly)
  : result ndarray :=
  let m := mask_lineonly rw in
  fa <- getitem fl m ;;
  p <- lookup fitted ;;
  xa <- getitem rw m ;;
  Value (subtract_a fa (call p xa)).

(** [ew = np.trapz(linesub/cs(restwave[iwave_lineonly]),
                   x=restwave[iwave_lineonly])] *)
Definition line_width (rw : ndarray) (p : PPoly) (ls : ndarray)
  : result float64 :=
  let m := mask_lineonly rw in
  xa <- getitem rw m ;;
  xb <- getitem rw m ;;
  Value (trapz (divide_a ls (call p xa)) xb).

(** Cell [0abc6f5a]. *)
Definition cell_line (ns : namespace) : result namespace :=
  rw <- lookup (restwave ns) ;;
  let m := mask_lineonly rw in
  ls <- line_excess rw (flux ns) (cs ns) ;;
  p <- lookup (cs ns) ;;
  w <- line_width rw p ls ;;
  Value (mkNamespace (wave ns) (flux ns) (z ns) (restwave ns) (iwave ns)
           (iwave_noline ns) (cs ns) (Some m) (Some ls) (Some w)).

(** The three cells, run in the notebook's order.  A cell that raises stops
    the run.  The kernel keeps the names a cell bound before it raised;
    [run] returns the exception alone and says nothing about them. *)
Definition run (ns : namespace) : result namespace :=
  ns1 <- cell_rest_frame ns ;;
  ns2 <- cell_continuum ns1 ;;
  cell_line ns2.

(** The measurement as a function of the loaded spectrum: the value the
    last cell prints, or the exception that stops the notebook. *)
Definition equivalent_width (w f : ndarray) : result float64 :=
  ns <- run (loaded w f) ;;
  lookup (ew ns).

End Notebook.

Import Notebook.

(** ** The measurement as the specification words it

    Samples are (rest wavelength, flux) pairs.  The continuum is the cubic
    spline through the samples inside the continuum windows; the equivalent
    width is the trapezoidal-rule integral over the samples inside the line
    window of (flux - continuum) / continuum. *)

Module Spec.

Definition in_window (lo hi : Q) (v : float64) : bool :=
  greater v (Fin lo) && less v (Fin hi).

Definition in_continuum (v : float64) : bool :=
  in_window 4800 4858 v || in_window 4865 4900 v.

Definition in_line (v : float64) : bool := in_window 4850 4870 v.

(** The sum over consecutive samples of
    [(x1 - x0) * (y0 + y1) / 2]. *)
Fixpoint trapezoid (pts : list (float64 * float64)) : float64 :=
  match pts with
  | (x0, y0) :: tl =>
      match tl with
      | (x1, y1) :: _ =>
          add (multiply (subtract x1 x0) (divide (add y0 y1) (Fin 2)))
            (trapezoid tl)
      | [] => Fin 0
      end
  | [] => Fin 0
  end.

Definition normalized_excess (p : PPoly) (s : float64 * float64)
  : float64 * float64 :=
  let continuum := evaluate p (fst s) in
  (fst s, divide (subtract (snd s) continuum) continuum).

Definition equivalent_width (w f : ndarray) : result float64 :=
  let samples := combine (rest_frame w z_host) f in
  let cont := filter (fun s => in_continuum (fst s)) samples in
  let line := filter (fun s => in_line (fst s)) samples in
  p <- CubicSpline (map fst cont) (map snd cont) ;;
  Value (trapezoid (map (normalized_excess p) line)).

End Spec.

(** ** Equality of doubles up to the representation of a rational

    NaN is related to itself: the relation compares results of two
    computations, it is not the [==] of Python. *)

Definition float_eq (a b : float64) : Prop :=
  match a, b with
  | Fin x, Fin y => x == y
  | PInf, PInf | NInf, NInf | NaN, NaN => True
  | _, _ => False
  end.

Infix "=f=" := float_eq (at level 70, no associativity).

(** The value the last cell binds to [ew], given the rest wavelengths, the
    flux and the continuum spline. *)
Definition width_of (rw fl : ndarray) (p : PPoly) : float64 :=
  let xa := compress (mask_lineonly rw) rw in
  let continuum := call p xa in
  trapz (divide_a (subtract_a (compress (mask_lineonly rw) fl) continuum)
           continuum) xa.

(** An array whose every element is below the next one. *)
Definition ascending (a : ndarray) : Prop :=
  forall i u v,
    nth_error a i = Some u -> nth_error a (S i) = Some v -> less u v = true.

(** The samples the continuum windows select, and those of the line
    window. *)
Definition continuum_x (w : ndarray) : ndarray :=
  compress (mask_noline (rest_frame w z_host)) (rest_frame w z_host).
Definition continuum_y (w f : ndarray) : ndarray :=
  compress (mask_noline (rest_frame w z_host)) f.
Definition line_x (w : ndarray) : ndarray :=
  compress (mask_lineonly (rest_frame w z_host)) (rest_frame w z_host).
Definition line_y (w f : ndarray) : ndarray :=
  compress (mask_lineonly (rest_frame w z_host)) f.

(** The observed wavelength of a line of rest wavelength [r] at the
    redshift of the host, [r * (1 + z)]. *)
Definition observed (r : Q) : float64 := Fin (r * (105217 # 100000)).

(** The value of the local cubic with coefficients [k] at offset [s] from
    its breakpoint, as [evaluate_poly1] accumulates it on finite doubles. *)
Definition poly (k : coeff) (s : Q) : Q :=
  let '(c0, c1, c2, c3) := k in
  (0 + c3 * 1 + c2 * (1 * s) + c1 * (1 * s * s) + c0 * (1 * s * s * s))%exact.

(** The array the last cell binds to [linesub]. *)
Definition linesub_of (w f : ndarray) (p : PPoly) : ndarray :=
  subtract_a (line_y w f) (call p (line_x w)).

(** A row of the tridiagonal system with a zero right-hand side. *)
Definition homogeneous (r : row) : Prop := snd r = 0.

(** At the sample of rest wavelength [v] the flux [y] equals the continuum
    [p], and the continuum is not zero. *)
Definition on_continuum (p : PPoly) (v y : float64) : Prop :=
  exists e, evaluate p v = Fin e /\ y =f= Fin e /\ ~ e == 0.

(** ** The cell that labels the emission lines (cell [dc84652e]) *)

Module Labels.

Import String.

(** [emissionlines]: rest wavelength and label. *)
Definition emissionlines : list (Q * string) :=
  [ (372615991210938 # 100000000000, "[OII]"%string);
    (372890991210938 # 100000000000, "[OII]"%string);
    (4101, "HDELTA"%string);
    (43404677734375 # 10000000000, "HGAMMA"%string);
    (486131982421875 # 100000000000, "HBETA"%string);
    (495891015625 # 100000000, "[OIII]4959"%string);
    (500683984375 # 100000000, "[OIII]5007"%string);
    (656281689453125 # 100000000000, "HALPHA"%string) ].

(** The label of the line the notebook goes on to measure. *)
Definition hbeta : string := "HBETA"%string.

(** [e[0]*(1+z)], the position of a rest wavelength in the observer
    frame. *)
Definition to_observer (e z0 : float64) : float64 :=
  multiply e (add (Fin 1) z0).

(** What the loop hands to [plt.axvline] and [plt.text]: the position and
    the label of every line. *)
Definition markers (z0 : float64) : list (float64 * string) :=
  map (fun e => (to_observer (Fin (fst e)) z0, snd e)) emissionlines.

(** [plt.xlim([3000,7000])] *)
Definition xlim : Q * Q := (3000, 7000).

End Labels.

(** ** The line-fitting notebook

    [x = np.linspace(0,5,20); y = 0.5*x + 0.25;
     y += np.random.normal(size=20)*0.5], and the residual function handed
    to [least_squares].  The random draw is a parameter [noise], an array
    of 20 doubles.  [least_squares] itself, an iterative solver of scipy,
    is not modelled. *)

Module FitDemo.

(** [np.arange(0, num)] as doubles. *)
Definition arange (num : nat) : ndarray :=
  map (fun i => Fin (inject_Z (Z.of_nat i))) (seq 0 num).

(** [step == 0] on a double. *)
Definition is_zero (a : float64) : bool :=
  match a with
  | Fin q => Qeq_bool q 0
  | _ => false
  end.

(** [np.linspace(start, stop, num)] with [endpoint=True]:
    [y = arange(0, num); step = (stop - start) / (num - 1);
     y = y * step] (or [y / (num - 1) * delta] when the step is zero,
    [y * delta] when [num < 2]); [y += start]; the last element is set to
    [stop]. *)
Definition linspace (start stop : float64) (num : nat) : ndarray :=
  let div := (num - 1)%nat in
  let delta := subtract stop start in
  let y0 := arange num in
  let y1 :=
    if Nat.ltb 0 div then
      let step := divide delta (Fin (inject_Z (Z.of_nat div))) in
      if is_zero step
      then map (fun v =>
                  multiply (divide v (Fin (inject_Z (Z.of_nat div)))) delta)
             y0
      else map (fun v => multiply v step) y0
    else map (fun v => multiply v delta) y0 in
  let y2 := map (fun v => add v start) y1 in
  if Nat.ltb 1 num then removelast y2 ++ [stop] else y2.

(** [c * a] and [a + c] with a scalar. *)
Definition multiply_s (c : float64) (a : ndarray) : ndarray :=
  map (fun v => multiply c v) a.
Definition add_s (a : ndarray) (c : float64) : ndarray :=
  map (fun v => add v c) a.

(** [x = np.linspace(0,5,20)] *)
Definition x : ndarray := linspace (Fin 0) (Fin 5) 20.

(** [y = 0.5*x + 0.25; y += noise*0.5] *)
Definition y (noise : ndarray) : ndarray :=
  add_a (add_s (multiply_s (Fin (1 # 2)) x) (Fin (1 # 4)))
    (map (fun v => multiply v (Fin (1 # 2))) noise).

(** [p[i]] *)
Definition item (p : ndarray) (i : nat) : result float64 :=
  match nth_error p i with
  | Some v => Value v
  | None => Raise IndexError
  end.

(** [def line_fit(p): model = p[0]*x + p[1]; return y - model], with the
    globals [x] and [y] as arguments.  numpy raises when the shapes of [y]
    and [model] cannot be broadcast; the residuals are only stated for
    data arrays of one length. *)
Definition line_fit (xs ys : ndarray) (p : ndarray) : result ndarray :=
  p0 <- item p 0 ;;
  let scaled := multiply_s p0 xs in
  p1 <- item p 1 ;;
  let model := add_s scaled p1 in
  Value (subtract_a ys model).

End FitDemo.

(** ** Running cells in any order

    A notebook lets its cells be run in any order, any number of times. *)

Inductive cell_id : Type := RestFrame | Continuum | Line.

Definition cell (c : cell_id) : namespace -> result namespace :=
  match c with
  | RestFrame => cell_rest_frame
  | Continuum => cell_continuum
  | Line => cell_line
  end.

Fixpoint run_cells (order : list cell_id) (ns : namespace)
  : result namespace :=
  match order with
  | [] => Value ns
  | c :: rest => ns' <- cell c ns ;; run_cells rest ns'
  end.

(** An array whose every element is above the next one. *)
Definition descending (a : ndarray) : Prop :=
  forall i u v,
    nth_error a i = Some u -> nth_error a (S i) = Some v -> less v u = true.

(** At the sample of rest wavelength [v] the continuum [p] is positive and
    the flux [y] is finite and not below it. *)
Definition in_emission (p : PPoly) (v y : float64) : Prop :=
  exists e q, evaluate p v = Fin e /\ 0 < e /\ y = Fin q /\ e <= q.

(** * Properties *)

(** ** Exact arithmetic *)

Lemma radd_correct x y : radd x y == x + y.
Proof. apply Qred_correct. Qed.

Lemma rsub_correct x y : rsub x y == x - y.
Proof. apply Qred_correct. Qed.

Lemma rmul_correct x y : rmul x y == x * y.
Proof. apply Qred_correct. Qed.

Lemma rdiv_correct x y : rdiv x y == x / y.
Proof. apply Qred_correct. Qed.

(** Unfold the reduced operations and forget the reductions. *)
Ltac exact_arith :=
  unfold radd, rsub, rmul, rdiv; rewrite ?Qred_correct.

Ltac exact_arith_in H :=
  unfold radd, rsub, rmul, rdiv in H; rewrite ?Qred_correct in H.

(** ** Shapes *)

Section Shapes.

Context {A B C : Type}.

Lemma zip_with_length (f : A -> B -> C) (a : list A) (b : list B) :
  length a = length b -> length (zip_with f a b) = length a.
Proof.
  revert b; induction a as [|x a IH]; intros [|y b] H; simpl in *;
    try discriminate; auto.
Qed.

Lemma zip_with_map (f : A -> B -> C) (g : A -> B) (a : list A) :
  zip_with f a (map g a) = map (fun v => f v (g v)) a.
Proof. induction a; simpl; congruence. Qed.

Lemma compress_length_le (m : list bool) (a : list A) :
  (length (compress m a) <= length a)%nat.
Proof.
  revert a; induction m as [|b m IH]; intros [|v a]; simpl; try lia.
  destruct b; simpl; specialize (IH a); lia.
Qed.

Lemma compress_same_length (m : list bool) (a : list A) (b : list B) :
  length a = length b -> length (compress m a) = length (compress m b).
Proof.
  revert a b; induction m as [|k m IH]; intros [|v a] [|u b] H; simpl in *;
    try discriminate; auto.
  destruct k; simpl; auto.
Qed.

Lemma compress_map (g : A -> bool) (a : list A) :
  compress (map g a) a = filter g a.
Proof.
  induction a as [|v a IH]; simpl; auto.
  destruct (g v); congruence.
Qed.

Lemma compress_combine (m : list bool) (a : list A) (b : list B) :
  length a = length b ->
  combine (compress m a) (compress m b) = compress m (combine a b).
Proof.
  revert a b; induction m as [|k m IH]; intros [|v a] [|u b] H; simpl in *;
    try discriminate; auto.
  destruct k; simpl; rewrite IH; auto.
Qed.

End Shapes.

Lemma getitem_ok (a : ndarray) (m : list bool) :
  length m = length a -> getitem a m = Value (compress m a).
Proof. intros H; unfold getitem; rewrite H, Nat.eqb_refl; reflexivity. Qed.

Lemma getitem_mismatch (a : ndarray) (m : list bool) :
  length m <> length a -> getitem a m = Raise IndexError.
Proof.
  intros H; unfold getitem.
  destruct (Nat.eqb_spec (length m) (length a)); [contradiction | reflexivity].
Qed.

Lemma window_length lo hi a : length (window lo hi a) = length a.
Proof.
  unfold window, logical_and, greater_s, less_s.
  rewrite zip_with_length; rewrite !length_map; reflexivity.
Qed.

Lemma mask_noline_length a : length (mask_noline a) = length a.
Proof.
  unfold mask_noline, logical_or.
  rewrite zip_with_length; rewrite !window_length; reflexivity.
Qed.

Lemma mask_lineonly_length a : length (mask_lineonly a) = length a.
Proof. apply window_length. Qed.

Lemma rest_frame_length w z0 : length (rest_frame w z0) = length w.
Proof. apply length_map. Qed.

(** The masks, sample by sample. *)

Lemma window_pointwise lo hi a : window lo hi a = map (Spec.in_window lo hi) a.
Proof.
  unfold window, logical_and, greater_s, less_s, Spec.in_window.
  induction a as [|v a IH]; cbn [map zip_with]; congruence.
Qed.

Lemma mask_noline_pointwise a : mask_noline a = map Spec.in_continuum a.
Proof.
  unfold mask_noline, logical_or, Spec.in_continuum.
  rewrite !window_pointwise.
  induction a as [|v a IH]; cbn [map zip_with]; congruence.
Qed.

Lemma mask_lineonly_pointwise a : mask_lineonly a = map Spec.in_line a.
Proof. apply window_pointwise. Qed.

(** ** The cells as one expression *)

Lemma fit_continuum_ok rw fl :
  length rw = length fl ->
  fit_continuum rw fl =
    CubicSpline (compress (mask_noline rw) rw) (compress (mask_noline rw) fl).
Proof.
  intros H; unfold fit_continuum.
  rewrite !getitem_ok by (rewrite mask_noline_length; congruence).
  reflexivity.
Qed.

Lemma run_ok ns :
  length (wave ns) = length (flux ns) ->
  let rw := rest_frame (wave ns) (z ns) in
  run ns =
    p <- CubicSpline (compress (mask_noline rw) rw)
           (compress (mask_noline rw) (flux ns)) ;;
    Value (mkNamespace (wave ns) (flux ns) (z ns) (Some rw)
             (Some (mask_iwave rw)) (Some (mask_noline rw)) (Some p)
             (Some (mask_lineonly rw))
             (Some (subtract_a (compress (mask_lineonly rw) (flux ns))
                      (call p (compress (mask_lineonly rw) rw))))
             (Some (width_of rw (flux ns) p))).
Proof.
  intros H rw.
  assert (Hrw : length rw = length (flux ns))
    by (unfold rw; rewrite rest_frame_length; exact H).
  unfold run, cell_rest_frame; fold rw.
  rewrite !getitem_ok by (unfold mask_iwave; rewrite window_length; congruence).
  cbn [bind]; unfold cell_continuum; cbn [restwave flux lookup bind iwave].
  rewrite fit_continuum_ok by exact Hrw.
  destruct (CubicSpline _ _) as [p|e]; cbn [bind]; [|reflexivity].
  rewrite !getitem_ok by (unfold mask_iwave; rewrite window_length; congruence).
  cbn [bind]; unfold cell_line, line_excess, line_width;
    cbn [restwave flux lookup bind cs].
  rewrite !getitem_ok by (rewrite mask_lineonly_length; congruence).
  reflexivity.
Qed.

Lemma run_mismatch ns :
  length (wave ns) <> length (flux ns) -> run ns = Raise IndexError.
Proof.
  intros H; unfold run, cell_rest_frame.
  rewrite getitem_ok
    by (unfold mask_iwave; rewrite window_length; reflexivity).
  rewrite getitem_mismatch; [reflexivity|].
  unfold mask_iwave; rewrite window_length, rest_frame_length; exact H.
Qed.

Lemma equivalent_width_ok w f :
  length w = length f ->
  let rw := rest_frame w z_host in
  equivalent_width w f =
    p <- CubicSpline (compress (mask_noline rw) rw)
           (compress (mask_noline rw) f) ;;
    Value (width_of rw f p).
Proof.
  intros H rw; unfold equivalent_width.
  rewrite (run_ok (loaded w f) H); cbn [loaded wave flux z]; fold rw.
  destruct (CubicSpline _ _); reflexivity.
Qed.

Lemma equivalent_width_mismatch w f :
  length w <> length f -> equivalent_width w f = Raise IndexError.
Proof.
  intros H; unfold equivalent_width.
  rewrite (run_mismatch (loaded w f) H); reflexivity.
Qed.

(** ** The windows *)

Lemma less_Fin x y : less (Fin x) (Fin y) = true <-> x < y.
Proof.
  unfold less; rewrite Qlt_alt.
  destruct (x ?= y); split; congruence.
Qed.


Lemma in_window_spec lo hi v :
  Spec.in_window lo hi v = true <-> exists q, v = Fin q /\ lo < q /\ q < hi.
Proof.
  unfold Spec.in_window, greater; rewrite andb_true_iff; split.
  - intros [H1 H2]; destruct v as [q| | |]; try discriminate.
    exists q; rewrite less_Fin in H1, H2; auto.
  - intros (q & -> & H1 & H2); rewrite !less_Fin; auto.
Qed.

Lemma in_continuum_spec v :
  Spec.in_continuum v = true <->
  exists q, v = Fin q /\
            ((4800 < q /\ q < 4858) \/ (4865 < q /\ q < 4900)).
Proof.
  unfold Spec.in_continuum; rewrite orb_true_iff, !in_window_spec; split.
  - intros [(q & -> & H)|(q & -> & H)]; exists q; auto.
  - intros (q & -> & [H|H]); [left|right]; exists q; auto.
Qed.

Lemma in_line_spec v :
  Spec.in_line v = true <-> exists q, v = Fin q /\ 4850 < q /\ q < 4870.
Proof. apply in_window_spec. Qed.

Lemma nth_map_true {A : Type} (g : A -> bool) (a : list A) (i : nat) :
  nth i (map g a) false = true ->
  exists v, nth_error a i = Some v /\ g v = true.
Proof.
  revert i; induction a as [|v a IH]; intros [|i] H; simpl in *;
    try discriminate; eauto.
Qed.

(** C1, as amended.  Every sample the continuum mask [iwave_noline] selects
    has a finite rest wavelength inside one of the two continuum windows
    (4800, 4858) and (4865, 4900), hence outside the excluded core
    [4858, 4865] of the line.  (It may lie inside the line window
    (4850, 4870): the windows overlap.) *)
Theorem continuum_mask_avoids_line_core (rw : ndarray) (i : nat) :
  nth i (mask_noline rw) false = true ->
  exists q, nth_error rw i = Some (Fin q) /\
            ((4800 < q /\ q < 4858) \/ (4865 < q /\ q < 4900)) /\
            ~ (4858 <= q /\ q <= 4865).
Proof.
  rewrite mask_noline_pointwise; intros H.
  apply nth_map_true in H; destruct H as (v & Hv & Hc).
  apply in_continuum_spec in Hc; destruct Hc as (q & -> & Hq).
  exists q; repeat split; auto.
  intros [H1 H2]; destruct Hq as [[_ Hq]|[Hq _]]; lra.
Qed.

Lemma continuum_mask_avoids_line_core_witness :
  exists q, nth_error [Fin 4810; Fin 4860; Fin 4866] 2 = Some (Fin q) /\
            ((4800 < q /\ q < 4858) \/ (4865 < q /\ q < 4900)) /\
            ~ (4858 <= q /\ q <= 4865).
Proof.
  apply (continuum_mask_avoids_line_core [Fin 4810; Fin 4860; Fin 4866] 2).
  reflexivity.
Defined.

(** C1 as stated fails: the sample observed at 4855 * 1.05217, whose rest
    wavelength is 4855, is selected by the continuum mask and lies inside
    the line window. *)
Lemma continuum_overlaps_line_window :
  let rw := rest_frame [observed 4855] z_host in
  rw = [Fin 4855] /\
  nth 0 (mask_noline rw) false = true /\
  nth 0 (mask_lineonly rw) false = true.
Proof. vm_compute; repeat split. Qed.

(** ** Purity *)

(** C9.  Run on two namespaces that agree on [wave], [flux] and [z] (and may
    differ on every stale binding), the cells either stop with the same
    exception or bind the same [ew]; and they leave [wave] and [flux] bound
    to the arrays they found. *)
Theorem run_deterministic_and_pure (ns1 ns2 : namespace) :
  wave ns1 = wave ns2 -> flux ns1 = flux ns2 -> z ns1 = z ns2 ->
  match run ns1, run ns2 with
  | Value a, Value b =>
      ew a = ew b /\ (exists v, ew a = Some v) /\
      wave a = wave ns1 /\ flux a = flux ns1 /\
      wave b = wave ns2 /\ flux b = flux ns2
  | Raise e1, Raise e2 => e1 = e2
  | _, _ => False
  end.
Proof.
  intros Hw Hf Hz.
  destruct (Nat.eq_dec (length (wave ns1)) (length (flux ns1))) as [H|H].
  - assert (H2 : length (wave ns2) = length (flux ns2)) by congruence.
    rewrite (run_ok ns1 H), (run_ok ns2 H2), <- Hw, <- Hf, <- Hz.
    destruct (CubicSpline _ _) as [p|e]; cbn [bind ew wave flux]; eauto 10.
  - assert (H2 : length (wave ns2) <> length (flux ns2)) by congruence.
    rewrite (run_mismatch ns1 H), (run_mismatch ns2 H2); reflexivity.
Qed.

Lemma run_deterministic_and_pure_witness :
  match
    run (loaded (map Fin [5061; 5071; 5113; 5115]) (map Fin [1; 1; 2; 2])),
    run (mkNamespace (map Fin [5061; 5071; 5113; 5115]) (map Fin [1; 1; 2; 2])
           z_host (Some [NaN]) None (Some [true]) None None (Some [PInf])
           (Some (Fin 7)))
  with
  | Value a, Value b =>
      ew a = ew b /\ (exists v, ew a = Some v) /\
      wave a = map Fin [5061; 5071; 5113; 5115] /\
      flux a = map Fin [1; 1; 2; 2] /\
      wave b = map Fin [5061; 5071; 5113; 5115] /\
      flux b = map Fin [1; 1; 2; 2]
  | Raise e1, Raise e2 => e1 = e2
  | _, _ => False
  end.
Proof.
  apply (run_deterministic_and_pure
           (loaded (map Fin [5061; 5071; 5113; 5115]) (map Fin [1; 1; 2; 2]))
           (mkNamespace (map Fin [5061; 5071; 5113; 5115])
              (map Fin [1; 1; 2; 2]) z_host (Some [NaN]) None (Some [true])
              None None (Some [PInf]) (Some (Fin 7))));
    reflexivity.
Defined.

(** ** Construction of the spline: when it raises and when it succeeds *)

Lemma as_finite_map_Fin qs : as_finite (map Fin qs) = Some qs.
Proof. induction qs as [|q qs IH]; simpl; [|rewrite IH]; reflexivity. Qed.

Lemma as_finite_Some a qs : as_finite a = Some qs -> a = map Fin qs.
Proof.
  revert qs; induction a as [|v a IH]; intros qs H; simpl in H.
  - injection H as <-; reflexivity.
  - destruct v; try discriminate.
    destruct (as_finite a) as [l|]; try discriminate.
    injection H as <-; simpl; f_equal; auto.
Qed.

Lemma as_finite_total a :
  Forall (fun v => isfinite v = true) a -> exists qs, as_finite a = Some qs.
Proof.
  induction 1 as [|v a Hv _ [qs IH]]; simpl; eauto.
  destruct v; try discriminate; rewrite IH; eauto.
Qed.

Lemma CubicSpline_ok xs ys :
  (2 <= length xs)%nat -> length xs = length ys ->
  strictly_increasing xs = true ->
  CubicSpline (map Fin xs) (map Fin ys) = Value (spline xs ys).
Proof.
  intros Hn Hl Hs; unfold CubicSpline; rewrite !length_map.
  destruct (Nat.ltb_spec (length xs) 2); [lia|].
  rewrite Hl, Nat.eqb_refl; cbn [negb].
  rewrite !as_finite_map_Fin, Hs; reflexivity.
Qed.

Lemma CubicSpline_inv xa ya p :
  CubicSpline xa ya = Value p ->
  exists xs ys, xa = map Fin xs /\ ya = map Fin ys /\
                (2 <= length xs)%nat /\ length xs = length ys /\
                strictly_increasing xs = true /\ p = spline xs ys.
Proof.
  unfold CubicSpline.
  destruct (Nat.ltb_spec (length xa) 2); [discriminate|].
  destruct (Nat.eqb_spec (length xa) (length ya)) as [Hl|]; [|discriminate].
  cbn [negb].
  destruct (as_finite xa) as [xs|] eqn:Hx; [|discriminate].
  destruct (as_finite ya) as [ys|] eqn:Hy; [|discriminate].
  destruct (strictly_increasing xs) eqn:Hs; [|discriminate].
  intros [= <-]; apply as_finite_Some in Hx, Hy; subst xa ya.
  rewrite !length_map in *; exists xs, ys; auto 10.
Qed.

Lemma CubicSpline_too_few xa ya :
  (length xa < 2)%nat -> CubicSpline xa ya = Raise (ValueError TooFewElements).
Proof.
  intros H; unfold CubicSpline.
  destruct (Nat.ltb_spec (length xa) 2); [reflexivity|lia].
Qed.

Lemma Qpositive_spec q : Qpositive q = true <-> 0 < q.
Proof.
  unfold Qpositive; rewrite Qlt_alt.
  destruct (0 ?= q); split; congruence.
Qed.

Lemma strictly_increasing_adjacent xs i a b :
  strictly_increasing xs = true ->
  nth_error xs i = Some a -> nth_error xs (S i) = Some b -> a < b.
Proof.
  unfold strictly_increasing; revert i.
  induction xs as [|x0 [|x1 xs] IH]; intros i Hs Ha Hb.
  - destruct i; discriminate.
  - destruct i as [|[|i]]; discriminate.
  - cbn [diffQ forallb] in Hs; apply andb_true_iff in Hs; destruct Hs as [H0 Hs].
    destruct i as [|i].
    + injection Ha as <-; injection Hb as <-.
      apply Qpositive_spec in H0; exact_arith_in H0; lra.
    + apply (IH i); auto.
Qed.

Lemma selected_continuum_finite rw :
  Forall (fun v => Spec.in_continuum v = true) (compress (mask_noline rw) rw).
Proof.
  rewrite mask_noline_pointwise, compress_map.
  apply Forall_forall; intros v Hv; apply filter_In in Hv; tauto.
Qed.

Lemma selected_continuum_as_finite rw :
  exists xs, compress (mask_noline rw) rw = map Fin xs.
Proof.
  destruct (as_finite_total (compress (mask_noline rw) rw)) as [xs H].
  - eapply Forall_impl; [|apply selected_continuum_finite].
    intros v Hv; apply in_continuum_spec in Hv.
    destruct Hv as (q & -> & _); reflexivity.
  - exists xs; apply as_finite_Some; exact H.
Qed.

(** ** Error conditions *)

(** C6.  When the continuum windows select fewer than two samples the
    measurement never returns a value; on arrays of matching lengths the
    exception is the one the spline constructor raises for too few points. *)
Theorem too_few_continuum_samples_raises (w f : ndarray) :
  (length (continuum_x w) < 2)%nat ->
  (length w = length f ->
   Notebook.equivalent_width w f = Raise (ValueError TooFewElements)) /\
  (forall v, Notebook.equivalent_width w f <> Value v).
Proof.
  intros H.
  assert (Hm : length w = length f ->
               Notebook.equivalent_width w f
               = Raise (ValueError TooFewElements)).
  { intros Hl; rewrite (equivalent_width_ok w f Hl); cbv zeta.
    rewrite CubicSpline_too_few by exact H; reflexivity. }
  split; [exact Hm|]; intros v.
  destruct (Nat.eq_dec (length w) (length f)) as [Hl|Hl].
  - rewrite (Hm Hl); discriminate.
  - rewrite (equivalent_width_mismatch w f Hl); discriminate.
Qed.

Lemma too_few_continuum_samples_raises_witness :
  (length (map Fin [5061; 5113; 5115]) = length (map Fin [1; 2; 2]) ->
   Notebook.equivalent_width (map Fin [5061; 5113; 5115]) (map Fin [1; 2; 2])
   = Raise (ValueError TooFewElements)) /\
  (forall v,
      Notebook.equivalent_width (map Fin [5061; 5113; 5115])
        (map Fin [1; 2; 2]) <> Value v).
Proof.
  apply (too_few_continuum_samples_raises (map Fin [5061; 5113; 5115])
           (map Fin [1; 2; 2])).
  vm_compute; lia.
Defined.

Lemma strictly_increasing_of_adjacent xs :
  (forall i a b,
      nth_error xs i = Some a -> nth_error xs (S i) = Some b -> a < b) ->
  strictly_increasing xs = true.
Proof.
  unfold strictly_increasing.
  induction xs as [|x0 [|x1 xs] IH]; intros H; try reflexivity.
  cbn [diffQ forallb]; apply andb_true_iff; split.
  - specialize (H 0%nat x0 x1 eq_refl eq_refl).
    apply Qpositive_spec; exact_arith; lra.
  - apply IH; intros i a b Ha Hb; apply (H (S i)); assumption.
Qed.

Lemma ascending_strictly_increasing xs :
  ascending (map Fin xs) <-> strictly_increasing xs = true.
Proof.
  split; intros H.
  - apply strictly_increasing_of_adjacent; intros i a b Ha Hb.
    apply less_Fin, (H i); rewrite nth_error_map; [rewrite Ha|rewrite Hb];
      reflexivity.
  - intros i u v Hu Hv; rewrite nth_error_map in Hu, Hv.
    destruct (nth_error xs i) as [a|] eqn:Ha; [|discriminate].
    destruct (nth_error xs (S i)) as [b|] eqn:Hb; [|discriminate].
    injection Hu as <-; injection Hv as <-.
    apply less_Fin; eapply strictly_increasing_adjacent; eauto.
Qed.

(** The cells return a value exactly when the spline can be built. *)
Lemma equivalent_width_total (w f : ndarray) :
  length w = length f ->
  (2 <= length (continuum_x w))%nat ->
  Forall (fun v => isfinite v = true) (continuum_y w f) ->
  ascending (continuum_x w) ->
  exists xs ys,
    continuum_x w = map Fin xs /\ continuum_y w f = map Fin ys /\
    length xs = length ys /\ (2 <= length xs)%nat /\
    strictly_increasing xs = true /\
    Notebook.equivalent_width w f
    = Value (width_of (rest_frame w z_host) f (spline xs ys)).
Proof.
  intros Hl Hn Hy Hx.
  destruct (selected_continuum_as_finite (rest_frame w z_host)) as [xs Hxs].
  destruct (as_finite_total _ Hy) as [ys Hys]; apply as_finite_Some in Hys.
  fold (continuum_x w) in Hxs.
  assert (Hlen : length xs = length ys).
  { rewrite <- (length_map Fin xs), <- (length_map Fin ys), <- Hxs, <- Hys.
    apply compress_same_length; rewrite rest_frame_length; exact Hl. }
  rewrite Hxs in Hx, Hn; rewrite length_map in Hn.
  apply ascending_strictly_increasing in Hx.
  exists xs, ys; repeat split; auto.
  rewrite (equivalent_width_ok w f Hl); cbv zeta.
  fold (continuum_x w) (continuum_y w f); rewrite Hxs, Hys.
  rewrite CubicSpline_ok by assumption; reflexivity.
Qed.

(** C5, as amended.  Arrays of different lengths stop the notebook with an
    [IndexError] at the first boolean-mask selection; continuum-window
    samples with finite flux whose wavelengths are not strictly increasing
    stop it with the [ValueError] of the spline constructor.  No value is
    returned in either case.  (Wavelengths out of order elsewhere are not
    detected.) *)
Theorem malformed_input_raises (w f : ndarray) :
  (length w <> length f -> Notebook.equivalent_width w f = Raise IndexError) /\
  (length w = length f ->
   Forall (fun v => isfinite v = true) (continuum_y w f) ->
   (exists i u v, nth_error (continuum_x w) i = Some u /\
                  nth_error (continuum_x w) (S i) = Some v /\
                  less u v = false) ->
   Notebook.equivalent_width w f = Raise (ValueError NotIncreasing)).
Proof.
  split; [apply equivalent_width_mismatch|].
  intros Hl Hy (i & u & v & Hu & Hv & Huv).
  destruct (selected_continuum_as_finite (rest_frame w z_host)) as [xs Hxs].
  destruct (as_finite_total _ Hy) as [ys Hys].
  fold (continuum_x w) in Hxs.
  assert (Hlen : length (continuum_x w) = length (continuum_y w f))
    by (apply compress_same_length; rewrite rest_frame_length; exact Hl).
  assert (Hn : (2 <= length (continuum_x w))%nat).
  { assert (S i < length (continuum_x w))%nat
      by (apply nth_error_Some; congruence).
    lia. }
  assert (Hs : strictly_increasing xs = false).
  { destruct (strictly_increasing xs) eqn:Hs; [|reflexivity].
    apply ascending_strictly_increasing in Hs; rewrite <- Hxs in Hs.
    rewrite (Hs i u v Hu Hv) in Huv; discriminate. }
  rewrite (equivalent_width_ok w f Hl); cbv zeta.
  fold (continuum_x w) (continuum_y w f).
  unfold CubicSpline.
  destruct (Nat.ltb_spec (length (continuum_x w)) 2); [lia|].
  rewrite Hlen, Nat.eqb_refl; cbn [negb].
  rewrite Hys, Hxs, as_finite_map_Fin, Hs; reflexivity.
Qed.

Lemma malformed_input_raises_witness :
  Notebook.equivalent_width (map observed [4810; 4820; 4860])
    (map Fin [1; 1]) = Raise IndexError /\
  Notebook.equivalent_width (map observed [4820; 4810; 4862; 4860])
    (map Fin [1; 1; 2; 2]) = Raise (ValueError NotIncreasing).
Proof.
  split.
  - apply (proj1 (malformed_input_raises (map observed [4810; 4820; 4860])
                    (map Fin [1; 1]))).
    vm_compute; lia.
  - apply (proj2 (malformed_input_raises
                    (map observed [4820; 4810; 4862; 4860])
                    (map Fin [1; 1; 2; 2]))).
    + reflexivity.
    + vm_compute; repeat constructor.
    + exists 0%nat; vm_compute; eauto.
Defined.

(** C5 as stated fails: these wavelengths are out of order inside the line
    (4862 before 4860), the continuum samples 4810, 4820 and 4880 are in
    order, and the cells return a value, -2. *)
Lemma unsorted_wavelengths_not_detected :
  let w := map observed [4810; 4820; 4862; 4860; 4880] in
  let f := map Fin [1; 1; 2; 2; 1] in
  length w = length f /\
  rest_frame w z_host = map Fin [4810; 4820; 4862; 4860; 4880] /\
  less (Fin 4860) (Fin 4862) = true /\
  Notebook.equivalent_width w f = Value (Fin (-2)).
Proof. vm_compute; repeat split. Qed.

(** ** Extrapolation *)

Lemma less_less_equal u v : less u v = true -> less_equal u v = true.
Proof.
  destruct u as [x| | |], v as [y| | |]; simpl; try congruence.
  destruct (x ?= y); congruence.
Qed.

Lemma less_not_less_equal u v : less v u = true -> less_equal u v = false.
Proof.
  destruct u as [x| | |], v as [y| | |]; simpl; try congruence.
  rewrite <- (Qcompare_antisym x y); destruct (x ?= y); simpl; congruence.
Qed.

Lemma find_interval_below xs v :
  Forall (fun a => less v (Fin a) = true) xs -> find_interval xs v = 0%nat.
Proof.
  destruct xs as [|x0 [|x1 [|x2 xs]]]; intros H; try reflexivity.
  cbn [find_interval].
  inversion H as [|? ? _ H1]; inversion H1 as [|? ? Hx1 _]; subst.
  rewrite (less_not_less_equal _ _ Hx1); reflexivity.
Qed.

Lemma find_interval_above xs v :
  Forall (fun a => less (Fin a) v = true) xs ->
  find_interval xs v = (length xs - 2)%nat.
Proof.
  induction xs as [|x0 xs IH]; intros H; [reflexivity|].
  destruct xs as [|x1 [|x2 xs]]; try reflexivity.
  inversion H as [|? ? _ H1]; subst.
  assert (Hx1 : less (Fin x1) v = true) by (inversion H1; assumption).
  change (find_interval (x0 :: x1 :: x2 :: xs) v)
    with (if less_equal (Fin x1) v
          then S (find_interval (x1 :: x2 :: xs) v) else 0%nat).
  rewrite (less_less_equal _ _ Hx1), (IH H1); simpl; lia.
Qed.

Lemma find_interval_bound xs v :
  (2 <= length xs)%nat -> (find_interval xs v < length xs - 1)%nat.
Proof.
  induction xs as [|x0 xs IH]; intros H; [simpl in H; lia|].
  destruct xs as [|x1 [|x2 xs]]; simpl in H; try lia.
  - simpl; lia.
  - change (find_interval (x0 :: x1 :: x2 :: xs) v)
      with (if less_equal (Fin x1) v
            then S (find_interval (x1 :: x2 :: xs) v) else 0%nat).
    destruct (less_equal (Fin x1) v); [|simpl; lia].
    assert (find_interval (x1 :: x2 :: xs) v < length (x1 :: x2 :: xs) - 1)%nat
      by (apply IH; simpl; lia).
    simpl in *; lia.
Qed.

Lemma fit_continuum_inv rw fl p :
  fit_continuum rw fl = Value p ->
  length rw = length fl /\
  CubicSpline (compress (mask_noline rw) rw) (compress (mask_noline rw) fl)
  = Value p.
Proof.
  intros H.
  destruct (Nat.eq_dec (length rw) (length fl)) as [Hl|Hl].
  - split; [exact Hl|]; rewrite <- (fit_continuum_ok rw fl Hl); exact H.
  - unfold fit_continuum in H.
    rewrite getitem_ok in H by apply mask_noline_length.
    rewrite getitem_mismatch in H
      by (rewrite mask_noline_length; exact Hl).
    discriminate.
Qed.

Lemma equivalent_width_with (w f : ndarray) (p : PPoly) :
  length w = length f ->
  CubicSpline (continuum_x w) (continuum_y w f) = Value p ->
  Notebook.equivalent_width w f = Value (width_of (rest_frame w z_host) f p).
Proof.
  intros Hl Hcs; rewrite (equivalent_width_ok w f Hl); cbv zeta.
  fold (continuum_x w) (continuum_y w f); rewrite Hcs; reflexivity.
Qed.


(** C4, as amended.  When the line-window samples all lie outside the range
    of the continuum samples and the spline is built, the measurement does
    not raise: the breakpoints of [cs] are the continuum samples, the
    continuum at every line sample is the first or the last cubic piece,
    extrapolated, and a value is returned. *)
Theorem line_outside_continuum_extrapolates (w f : ndarray) (p : PPoly) :
  fit_continuum (rest_frame w z_host) f = Value p ->
  Forall (fun v =>
            Forall (fun a => less v a = true) (continuum_x w) \/
            Forall (fun a => less a v = true) (continuum_x w)) (line_x w) ->
  Notebook.equivalent_width w f
  = Value (width_of (rest_frame w z_host) f p) /\
  continuum_x w = map Fin (x p) /\
  Forall (fun v => find_interval (x p) v = 0%nat \/
                   find_interval (x p) v = (length (x p) - 2)%nat)
    (line_x w).
Proof.
  intros Hfit Hout.
  apply fit_continuum_inv in Hfit; destruct Hfit as [Hl Hcs].
  rewrite rest_frame_length in Hl.
  fold (continuum_x w) (continuum_y w f) in Hcs.
  split; [apply equivalent_width_with; assumption|].
  apply CubicSpline_inv in Hcs.
  destruct Hcs as (xs & ys & Hxs & _ & _ & _ & _ & ->).
  unfold spline; cbn [x]; split; [exact Hxs|].
  rewrite Hxs in Hout; eapply Forall_impl; [|exact Hout].
  intros v [H|H]; rewrite Forall_map in H.
  - left; apply find_interval_below; exact H.
  - right; apply find_interval_above; exact H.
Qed.

Ltac ascending_by_cases :=
  let i := fresh "i" in
  let Hu := fresh "Hu" in
  let Hv := fresh "Hv" in
  intros i ? ? Hu Hv;
  repeat (destruct i as [|i];
          [vm_compute in Hu, Hv;
           injection Hu as <-; injection Hv as <-; reflexivity|]);
  vm_compute in Hv; destruct i; discriminate.

Lemma line_outside_continuum_extrapolates_witness :
  Notebook.equivalent_width (map observed [4810; 4820; 4860; 4862])
    (map Fin [1; 1; 2; 2])
  = Value (width_of (rest_frame (map observed [4810; 4820; 4860; 4862])
                       z_host)
             (map Fin [1; 1; 2; 2]) (spline [4810; 4820] [1; 1])) /\
  continuum_x (map observed [4810; 4820; 4860; 4862])
  = map Fin (x (spline [4810; 4820] [1; 1])) /\
  Forall (fun v =>
            find_interval (x (spline [4810; 4820] [1; 1])) v = 0%nat \/
            find_interval (x (spline [4810; 4820] [1; 1])) v
            = Nat.sub (length (x (spline [4810; 4820] [1; 1]))) 2)
    (line_x (map observed [4810; 4820; 4860; 4862])).
Proof.
  apply (line_outside_continuum_extrapolates
           (map observed [4810; 4820; 4860; 4862]) (map Fin [1; 1; 2; 2])
           (spline [4810; 4820] [1; 1])).
  - vm_compute; reflexivity.
  - vm_compute; repeat (constructor; [right; repeat constructor|]);
      constructor.
Defined.

(** C4 as stated fails: the two line samples (rest wavelengths 4860 and
    4862) lie above every continuum sample (4810 and 4820), and the cells
    return the value 2. *)
Lemma line_outside_continuum_returns :
  let w := map observed [4810; 4820; 4860; 4862] in
  let f := map Fin [1; 1; 2; 2] in
  continuum_x w = [Fin 4810; Fin 4820] /\
  line_x w = [Fin 4860; Fin 4862] /\
  Notebook.equivalent_width w f = Value (Fin 2).
Proof. vm_compute; repeat split. Qed.

(** ** Division by a vanishing continuum *)

Lemma add_nonfinite_l a b : isfinite a = false -> isfinite (add a b) = false.
Proof. destruct a, b; simpl; congruence. Qed.

Lemma add_nonfinite_r a b : isfinite b = false -> isfinite (add a b) = false.
Proof. destruct a, b; simpl; congruence. Qed.

Lemma signed_inf_nonfinite s : isfinite (signed_inf s) = false.
Proof. destruct s; reflexivity. Qed.

Lemma multiply_nonfinite_r a b :
  isfinite b = false -> isfinite (multiply a b) = false.
Proof.
  destruct a, b; simpl; try congruence; intros _; apply signed_inf_nonfinite.
Qed.

Lemma divide_nonfinite_l a b :
  isfinite a = false -> isfinite (divide a b) = false.
Proof.
  destruct a, b; simpl; try congruence; intros _; apply signed_inf_nonfinite.
Qed.

Lemma divide_by_zero a e : e == 0 -> isfinite (divide a (Fin e)) = false.
Proof.
  intros He; destruct a as [q| | |]; simpl; try reflexivity.
  - apply Qeq_bool_iff in He; rewrite He; apply signed_inf_nonfinite.
  - apply Qeq_bool_iff in He; rewrite He; reflexivity.
  - apply Qeq_bool_iff in He; rewrite He; reflexivity.
Qed.

Lemma trapz_cons y0 y1 ys x0 x1 xs :
  trapz (y0 :: y1 :: ys) (x0 :: x1 :: xs)
  = add (divide (multiply (subtract x1 x0) (add y1 y0)) (Fin 2))
      (trapz (y1 :: ys) (x1 :: xs)).
Proof. reflexivity. Qed.

Lemma trapz_short y x : (length y < 2)%nat -> trapz y x = Fin 0.
Proof.
  destruct y as [|y0 [|y1 ys]]; simpl; try lia; intros _.
  - unfold trapz; destruct (diff x); reflexivity.
  - unfold trapz; destruct (diff x); reflexivity.
Qed.

Lemma trapz_nonfinite y x :
  length y = length x -> (2 <= length y)%nat ->
  Exists (fun v => isfinite v = false) y -> isfinite (trapz y x) = false.
Proof.
  revert x; induction y as [|y0 y IH]; intros x Hl Hn He; [simpl in Hn; lia|].
  destruct y as [|y1 ys]; [simpl in Hn; lia|].
  destruct x as [|x0 [|x1 xs]]; try discriminate.
  rewrite trapz_cons.
  destruct (isfinite y0) eqn:H0.
  - inversion He as [? ? H|? ? H]; subst; [congruence|].
    destruct (isfinite y1) eqn:H1.
    + assert (Hys : Exists (fun v => isfinite v = false) ys)
        by (inversion H; subst; [congruence|assumption]).
      apply add_nonfinite_r, IH.
      * simpl in *; lia.
      * destruct ys; [inversion Hys|simpl; lia].
      * exact H.
    + apply add_nonfinite_l, divide_nonfinite_l, multiply_nonfinite_r,
        add_nonfinite_l; exact H1.
  - apply add_nonfinite_l, divide_nonfinite_l, multiply_nonfinite_r,
      add_nonfinite_r; exact H0.
Qed.

Lemma normalized_nonfinite (g : float64 -> float64) (ly lx : ndarray) v :
  length ly = length lx -> In v lx ->
  (forall a, isfinite (divide a (g v)) = false) ->
  Exists (fun t => isfinite t = false)
    (divide_a (subtract_a ly (map g lx)) (map g lx)).
Proof.
  revert ly; induction lx as [|x lx IH]; intros [|y ly] Hl Hin Hg;
    simpl in *; try discriminate; try contradiction.
  destruct Hin as [->|Hin].
  - left; apply Hg.
  - right; apply IH; auto.
Qed.

Lemma normalized_length (p : PPoly) (ly lx : ndarray) :
  length ly = length lx ->
  length (divide_a (subtract_a ly (call p lx)) (call p lx)) = length lx.
Proof.
  intros H; unfold divide_a, subtract_a, call.
  assert (H1 : length (zip_with subtract ly (map (evaluate p) lx))
               = length lx)
    by (rewrite zip_with_length; rewrite ?length_map; auto).
  rewrite zip_with_length; rewrite ?length_map; auto.
Qed.

Lemma line_y_length w f :
  length w = length f -> length (line_y w f) = length (line_x w).
Proof.
  intros H; apply compress_same_length; rewrite rest_frame_length; auto.
Qed.

(** C3, as amended.  When the continuum spline evaluates to zero at a
    sample inside the line window, nothing is raised: numpy's division
    yields an infinity or NaN there and the cells return a value, which is
    not finite as soon as the line window holds two samples (and is the
    empty integral 0 when it holds fewer). *)
Theorem zero_continuum_returns_nonfinite (w f : ndarray) (p : PPoly)
        (v : float64) :
  fit_continuum (rest_frame w z_host) f = Value p ->
  In v (line_x w) ->
  evaluate p v =f= Fin 0 ->
  exists r, Notebook.equivalent_width w f = Value r /\
            ((2 <= length (line_x w))%nat -> isfinite r = false) /\
            ((length (line_x w) < 2)%nat -> r = Fin 0).
Proof.
  intros Hfit Hin Hz.
  apply fit_continuum_inv in Hfit; destruct Hfit as [Hl Hcs].
  rewrite rest_frame_length in Hl.
  exists (width_of (rest_frame w z_host) f p); split; [|split].
  - rewrite (equivalent_width_ok w f Hl); cbv zeta; rewrite Hcs; reflexivity.
  - intros Hn; unfold width_of; cbv zeta; fold (line_x w) (line_y w f).
    pose proof (line_y_length w f Hl) as Hly.
    apply trapz_nonfinite.
    + rewrite normalized_length; auto.
    + rewrite normalized_length; auto.
    + apply normalized_nonfinite with (v := v); auto.
      intros a; destruct (evaluate p v) as [e| | |]; try contradiction.
      apply divide_by_zero; exact Hz.
  - intros Hn; unfold width_of; cbv zeta; fold (line_x w) (line_y w f).
    apply trapz_short.
    rewrite normalized_length; auto using line_y_length.
Qed.

Lemma zero_continuum_returns_nonfinite_witness :
  exists r,
    Notebook.equivalent_width (map observed [4810; 4820; 4860; 4862])
      (map Fin [0; 0; 3; 3]) = Value r /\
    (le 2 (length (line_x (map observed [4810; 4820; 4860; 4862]))) ->
     isfinite r = false) /\
    (lt (length (line_x (map observed [4810; 4820; 4860; 4862]))) 2 ->
     r = Fin 0).
Proof.
  eapply (zero_continuum_returns_nonfinite
            (map observed [4810; 4820; 4860; 4862]) (map Fin [0; 0; 3; 3])).
  - vm_compute; reflexivity.
  - vm_compute; left; reflexivity.
  - vm_compute; reflexivity.
Defined.

(** C3 as stated fails: with zero flux in the continuum windows the spline
    is zero at the line samples, of rest wavelengths 4860 and 4862, and the
    cells return NaN instead of raising. *)
Lemma zero_continuum_returns_nan :
  let w := map observed [4810; 4820; 4860; 4862] in
  let f := map Fin [0; 0; 0; 0] in
  fit_continuum (rest_frame w z_host) f = Value (spline [4810; 4820] [0; 0]) /\
  line_x w = [Fin 4860; Fin 4862] /\
  evaluate (spline [4810; 4820] [0; 0]) (Fin 4860) = Fin 0 /\
  Notebook.equivalent_width w f = Value NaN.
Proof. vm_compute; repeat split. Qed.

(** ** The spline interpolates its nodes *)

(** Two checks of the spline against what 'not-a-knot' is known for: through
    samples of a cubic it is that cubic, inside and outside the breakpoints;
    through three points it is the parabola. *)
Example not_a_knot_reproduces_cubic :
  call (spline [0; 1; 3; 4; 7; 8] [0; 1; 27; 64; 343; 512])
    [Fin (5 # 2); Fin 6; Fin 10; Fin (-3)]
  = [Fin (125 # 8); Fin 216; Fin 1000; Fin (-27)].
Proof. vm_compute; reflexivity. Qed.

Example three_points_parabola :
  call (spline [0; 1; 3] [0; 1; 9]) [Fin 2; Fin 5; Fin (-1)]
  = [Fin 4; Fin 25; Fin 1].
Proof. vm_compute; reflexivity. Qed.

Lemma evaluate_poly1_Fin s k : evaluate_poly1 (Fin s) k = Fin (poly k s).
Proof. destruct k as [[[c0 c1] c2] c3]; reflexivity. Qed.

Lemma evaluate_Fin p v :
  evaluate p (Fin v)
  = Fin (poly (nth (find_interval (x p) (Fin v)) (c p) (0, 0, 0, 0))
           (radd v (- nth (find_interval (x p) (Fin v)) (x p) 0))).
Proof. unfold evaluate; cbn [isnan]; apply evaluate_poly1_Fin. Qed.

Lemma strictly_increasing_tail x0 xs :
  strictly_increasing (x0 :: xs) = true -> strictly_increasing xs = true.
Proof.
  unfold strictly_increasing; destruct xs as [|x1 xs]; [reflexivity|].
  cbn [diffQ forallb]; intros H; apply andb_true_iff in H; tauto.
Qed.

Lemma strictly_increasing_head x0 x1 xs :
  strictly_increasing (x0 :: x1 :: xs) = true -> x0 < x1.
Proof.
  intros H.
  apply (strictly_increasing_adjacent (x0 :: x1 :: xs) 0 _ _ H); reflexivity.
Qed.



(** The derivatives: one per breakpoint. *)

Lemma diffQ_length xs : length (diffQ xs) = (length xs - 1)%nat.
Proof.
  induction xs as [|x0 [|x1 xs] IH]; try reflexivity.
  change (diffQ (x0 :: x1 :: xs)) with (rsub x1 x0 :: diffQ (x1 :: xs)).
  cbn [length] in *; lia.
Qed.

Lemma eliminate_length rows cp dp :
  length (eliminate rows cp dp) = length rows.
Proof.
  revert cp dp; induction rows as [|[[[l d] u] b] rows IH]; intros cp dp;
    simpl; [|rewrite IH]; reflexivity.
Qed.

Lemma back_substitute_length cd : length (back_substitute cd) = length cd.
Proof.
  induction cd as [|[c' d'] cd IH]; [reflexivity|].
  cbn [back_substitute].
  destruct (back_substitute cd) as [|s1 ss]; simpl in *; lia.
Qed.

Lemma solve_banded_length rows : length (solve_banded rows) = length rows.
Proof.
  unfold solve_banded; rewrite back_substitute_length, eliminate_length.
  reflexivity.
Qed.

Lemma interior_rows_length dx : forall slope,
  length slope = length dx ->
  length (interior_rows dx slope) = (length dx - 1)%nat.
Proof.
  induction dx as [|h0 dx IH]; intros [|m0 slope] H; try discriminate;
    [reflexivity|].
  destruct dx as [|h1 dx], slope as [|m1 slope]; try discriminate;
    [reflexivity|].
  change (interior_rows (h0 :: h1 :: dx) (m0 :: m1 :: slope))
    with ((h1, rmul 2 (radd h0 h1), h0,
            rmul 3 (radd (rmul h1 m0) (rmul h0 m1)))
            :: interior_rows (h1 :: dx) (m1 :: slope)).
  cbn [length]; rewrite IH by (simpl in *; lia); simpl; lia.
Qed.

Lemma derivatives_length xs slope :
  (2 <= length xs)%nat -> length slope = length (diffQ xs) ->
  length (derivatives xs (diffQ xs) slope) = length xs.
Proof.
  intros Hn Hl; unfold derivatives.
  destruct (length xs) as [|[|[|[|n]]]] eqn:Hx; try lia; try reflexivity.
  rewrite solve_banded_length; cbn [length]; rewrite length_app.
  rewrite interior_rows_length by exact Hl.
  rewrite diffQ_length, Hx; simpl; lia.
Qed.


(** ** Where the excess can differ from zero *)

Lemma compress_mask_fst {A B : Type} (g : A -> bool) (a : list A)
      (b : list B) :
  compress (map g a) (combine a b)
  = filter (fun s => g (fst s)) (combine a b).
Proof.
  revert b; induction a as [|u a IH]; intros [|v b]; simpl; auto.
  destruct (g u); rewrite IH; reflexivity.
Qed.





Lemma selected_line_in_window w :
  Forall (fun v => Spec.in_line v = true) (line_x w).
Proof.
  unfold line_x; rewrite mask_lineonly_pointwise, compress_map.
  apply Forall_forall; intros v Hv; apply filter_In in Hv; tauto.
Qed.





(** ** The cells compute the trapezoidal integral of the specification *)

#[export] Instance float_eq_Equivalence : Equivalence float_eq.
Proof.
  split.
  - intros [x| | |]; simpl; auto; reflexivity.
  - intros [x| | |] [y| | |]; simpl; auto; intros H; symmetry; exact H.
  - intros [x| | |] [y| | |] [t| | |]; simpl; auto; try contradiction.
    intros H1 H2; rewrite H1; exact H2.
Qed.

#[export] Instance add_Proper :
  Proper (float_eq ==> float_eq ==> float_eq) add.
Proof.
  intros [x| | |] [x'| | |] Hx [y| | |] [y'| | |] Hy; simpl in *;
    try contradiction; try exact I.
  exact_arith; rewrite Hx, Hy; reflexivity.
Qed.

Lemma add_comm a b : add a b =f= add b a.
Proof.
  destruct a as [x| | |], b as [y| | |]; simpl; try exact I.
  exact_arith; ring.
Qed.

Lemma sign_half b b' : b == b' -> (rdiv b' 2 ?= 0) = (b ?= 0).
Proof.
  intros H.
  assert (Hh : rdiv b' 2 == b * (1 # 2))
    by (exact_arith; rewrite H; field).
  destruct (Qcompare_spec b 0) as [Hb|Hb|Hb].
  - apply (proj1 (Qeq_alt _ _)); rewrite Hh, Hb; reflexivity.
  - apply (proj1 (Qlt_alt _ _)); rewrite Hh; lra.
  - apply (proj1 (Qgt_alt _ _)); rewrite Hh; lra.
Qed.

(** Halving the product is multiplying by the half, also at the special
    values. *)
Lemma halve_product d s s' :
  s =f= s' ->
  divide (multiply d s) (Fin 2) =f= multiply d (divide s' (Fin 2)).
Proof.
  destruct d as [a| | |], s as [b| | |], s' as [b'| | |]; simpl;
    try contradiction; intros H; try exact I;
    first [ solve [exact_arith; rewrite H; field]
          | solve [destruct (a ?= 0); simpl; exact I]
          | solve [rewrite (sign_half b b' H); destruct (b ?= 0); simpl;
                   exact I] ].
Qed.

Lemma trapz_trapezoid (pts : list (float64 * float64)) :
  trapz (map snd pts) (map fst pts) =f= Spec.trapezoid pts.
Proof.
  induction pts as [|[x0 y0] pts IH]; [reflexivity|].
  destruct pts as [|[x1 y1] pts]; [reflexivity|].
  change (map snd ((x0, y0) :: (x1, y1) :: pts))
    with (y0 :: y1 :: map snd pts).
  change (map fst ((x0, y0) :: (x1, y1) :: pts))
    with (x0 :: x1 :: map fst pts).
  rewrite trapz_cons.
  change (Spec.trapezoid ((x0, y0) :: (x1, y1) :: pts))
    with (add (multiply (subtract x1 x0) (divide (add y0 y1) (Fin 2)))
            (Spec.trapezoid ((x1, y1) :: pts))).
  apply add_Proper; [|exact IH].
  apply halve_product, add_comm.
Qed.

Lemma map_fst_combine {A B : Type} (a : list A) (b : list B) :
  length a = length b -> map fst (combine a b) = a.
Proof.
  revert b; induction a as [|u a IH]; intros [|v b] H; simpl in *;
    try discriminate; auto.
  f_equal; auto.
Qed.

Lemma map_snd_combine {A B : Type} (a : list A) (b : list B) :
  length a = length b -> map snd (combine a b) = b.
Proof.
  revert b; induction a as [|u a IH]; intros [|v b] H; simpl in *;
    try discriminate; auto.
  f_equal; auto.
Qed.

Lemma selected_samples (g : float64 -> bool) (rw f : ndarray) :
  length rw = length f ->
  filter (fun s => g (fst s)) (combine rw f)
  = combine (compress (map g rw) rw) (compress (map g rw) f).
Proof.
  intros H; rewrite compress_combine by exact H.
  symmetry; apply compress_mask_fst.
Qed.

Lemma normalized_excess_samples (p : PPoly) (lx ly : ndarray) :
  length ly = length lx ->
  map (Spec.normalized_excess p) (combine lx ly)
  = combine lx (divide_a (subtract_a ly (call p lx)) (call p lx)).
Proof.
  revert ly; induction lx as [|v lx IH]; intros [|y ly] H; simpl in *;
    try discriminate; auto.
  unfold Spec.normalized_excess at 1; cbn [fst snd]; f_equal.
  apply IH; lia.
Qed.

(** C2.  Whenever the cells return a value, it is the value of the
    specification: the trapezoidal-rule integral, over the samples inside
    the line window, of (flux - continuum) / continuum, the continuum being
    the cubic spline through the samples inside the continuum windows. *)
Theorem equivalent_width_refines_spec (w f : ndarray) (v : float64) :
  Notebook.equivalent_width w f = Value v ->
  exists v', Spec.equivalent_width w f = Value v' /\ v =f= v'.
Proof.
  intros H.
  destruct (Nat.eq_dec (length w) (length f)) as [Hl|Hl];
    [|rewrite (equivalent_width_mismatch w f Hl) in H; discriminate].
  rewrite (equivalent_width_ok w f Hl) in H; cbv zeta in H.
  assert (Hrw : length (rest_frame w z_host) = length f)
    by (rewrite rest_frame_length; exact Hl).
  unfold Spec.equivalent_width; cbv zeta.
  rewrite (selected_samples Spec.in_continuum _ _ Hrw).
  rewrite (selected_samples Spec.in_line _ _ Hrw).
  rewrite <- mask_noline_pointwise, <- mask_lineonly_pointwise.
  rewrite map_fst_combine, map_snd_combine
    by (apply compress_same_length; exact Hrw).
  destruct (CubicSpline _ _) as [p|e]; [|discriminate].
  cbn [bind] in *; injection H as <-.
  eexists; split; [reflexivity|].
  fold (line_x w) (line_y w f).
  pose proof (line_y_length w f Hl) as Hly.
  rewrite normalized_excess_samples by exact Hly.
  rewrite <- trapz_trapezoid.
  rewrite map_fst_combine, map_snd_combine
    by (rewrite normalized_length; auto).
  unfold width_of; cbv zeta; fold (line_x w) (line_y w f); reflexivity.
Qed.

Lemma equivalent_width_refines_spec_witness :
  exists v',
    Spec.equivalent_width (map observed [4810; 4820; 4855; 4860; 4866; 4880])
      (map Fin [1; 1; 1; 3; 1; 1]) = Value v' /\ Fin 11 =f= v'.
Proof.
  apply (equivalent_width_refines_spec
           (map observed [4810; 4820; 4855; 4860; 4866; 4880])
           (map Fin [1; 1; 1; 3; 1; 1])).
  vm_compute; reflexivity.
Defined.

(** ** The spline through a constant is that constant *)

Lemma Qred_zero q : q == 0 -> Qred q = 0.
Proof. intros H; apply (Qred_complete q 0 H). Qed.

Lemma rmul_0_r a : rmul a 0 = 0.
Proof. apply Qred_zero; ring. Qed.

Lemma rdiv_0_l h : rdiv 0 h = 0.
Proof. apply Qred_zero; unfold Qdiv; ring. Qed.

Lemma rsub_diag a : rsub a a = 0.
Proof. apply Qred_zero; ring. Qed.

Lemma nth_zero l i : Forall (eq 0) l -> nth i l 0 = 0.
Proof.
  intros H; revert i; induction H as [|q l Hq _ IH]; intros [|i]; simpl; auto.
Qed.

Lemma diffQ_const c ys : Forall (eq c) ys -> Forall (eq 0) (diffQ ys).
Proof.
  induction ys as [|y0 ys IH]; intros H; [constructor|].
  destruct ys as [|y1 ys]; [constructor|].
  inversion H as [|? ? H0 H1]; subst.
  change (diffQ (y0 :: y1 :: ys)) with (rsub y1 y0 :: diffQ (y1 :: ys)).
  inversion H1; subst; constructor; [rewrite rsub_diag; reflexivity|auto].
Qed.

Lemma slope_zero dy dx :
  Forall (eq 0) dy -> Forall (eq 0) (zip_with rdiv dy dx).
Proof.
  intros H; revert dx; induction H as [|q dy Hq _ IH]; intros [|h dx];
    simpl; constructor; auto.
  subst q; rewrite rdiv_0_l; reflexivity.
Qed.

Lemma interior_rows_zero dx : forall slope,
  Forall (eq 0) slope -> Forall homogeneous (interior_rows dx slope).
Proof.
  induction dx as [|h0 dx IH]; intros slope H; [destruct slope; constructor|].
  destruct slope as [|m0 slope]; [constructor|].
  destruct dx as [|h1 dx]; [constructor|].
  destruct slope as [|m1 slope]; [constructor|].
  change (interior_rows (h0 :: h1 :: dx) (m0 :: m1 :: slope))
    with ((h1, rmul 2 (radd h0 h1), h0,
            rmul 3 (radd (rmul h1 m0) (rmul h0 m1)))
            :: interior_rows (h1 :: dx) (m1 :: slope)).
  inversion H as [|? ? H0 H1]; subst; inversion H1; subst.
  constructor; [|apply IH; assumption].
  unfold homogeneous; cbn [snd]; rewrite !rmul_0_r; reflexivity.
Qed.

Lemma start_row_zero xs dx slope :
  Forall (eq 0) slope -> homogeneous (start_row xs dx slope).
Proof.
  intros H; unfold homogeneous, start_row; cbn [snd].
  rewrite !(nth_zero slope) by exact H.
  rewrite !rmul_0_r; apply rdiv_0_l.
Qed.

Lemma end_row_zero xs dx slope :
  Forall (eq 0) slope -> homogeneous (end_row xs dx slope).
Proof.
  intros H; unfold homogeneous, end_row; cbn [snd].
  rewrite !(nth_zero slope) by exact H.
  rewrite !rmul_0_r; apply rdiv_0_l.
Qed.

Lemma parabola_rows_zero dx slope :
  Forall (eq 0) slope -> Forall homogeneous (parabola_rows dx slope).
Proof.
  intros H; unfold parabola_rows, homogeneous.
  rewrite !(nth_zero slope) by exact H.
  repeat constructor; cbn [snd]; rewrite ?rmul_0_r; reflexivity.
Qed.

Lemma eliminate_zero rows : forall cp,
  Forall homogeneous rows ->
  Forall (fun cd => snd cd = 0) (eliminate rows cp 0).
Proof.
  induction rows as [|[[[l d] u] b] rows IH]; intros cp H; [constructor|].
  inversion H as [|? ? Hb Hrest]; subst.
  unfold homogeneous in Hb; cbn [snd] in Hb; subst b.
  cbn [eliminate]; cbv zeta.
  assert (Hd : rdiv (rsub 0 (rmul l 0)) (rsub d (rmul l cp)) = 0)
    by (rewrite rmul_0_r; apply rdiv_0_l).
  rewrite Hd; constructor; [reflexivity|apply IH; exact Hrest].
Qed.

Lemma back_substitute_zero cd :
  Forall (fun r => snd r = 0) cd -> Forall (eq 0) (back_substitute cd).
Proof.
  induction cd as [|[c' d'] cd IH]; intros H; [constructor|].
  inversion H as [|? ? Hd Hrest]; subst; cbn [snd] in Hd; subst d'.
  cbn [back_substitute]; specialize (IH Hrest).
  destruct (back_substitute cd) as [|s1 ss]; [repeat constructor|].
  inversion IH; subst; constructor; [|assumption].
  rewrite rmul_0_r; reflexivity.
Qed.

Lemma solve_banded_zero rows :
  Forall homogeneous rows -> Forall (eq 0) (solve_banded rows).
Proof.
  intros H; apply back_substitute_zero, eliminate_zero; exact H.
Qed.

Lemma derivatives_zero xs dx slope :
  Forall (eq 0) slope -> Forall (eq 0) (derivatives xs dx slope).
Proof.
  intros H; unfold derivatives.
  assert (Hgen : Forall (eq 0)
                   (solve_banded
                      (start_row xs dx slope
                         :: interior_rows dx slope ++ [end_row xs dx slope]))).
  { apply solve_banded_zero; constructor; [apply start_row_zero; exact H|].
    apply Forall_app; split; [apply interior_rows_zero; exact H|].
    constructor; [apply end_row_zero; exact H|constructor]. }
  destruct (length xs) as [|[|[|[|n]]]]; try exact Hgen.
  - rewrite (nth_zero slope) by exact H; repeat constructor.
  - apply solve_banded_zero, parabola_rows_zero; exact H.
Qed.

Lemma hermite_const c dx : forall slope dydx ys,
  Forall (eq 0) slope -> Forall (eq 0) dydx -> Forall (eq c) ys ->
  Forall (eq (0, 0, 0, c)) (hermite dx slope dydx ys).
Proof.
  induction dx as [|h dx IH]; intros [|m slope] [|s0 dydx] [|y0 ys] Hm Hs Hy;
    try constructor.
  cbn [hermite]; destruct dydx as [|s1 dydx]; [constructor|].
  inversion Hm; inversion Hs as [|? ? ? Hs']; inversion Hy; subst.
  inversion Hs'; subst; cbv zeta; constructor; [|apply IH; assumption].
  assert (E1 : rsub (radd 0 0) (rmul 2 0) = 0) by reflexivity.
  assert (E2 : rsub 0 0 = 0) by reflexivity.
  rewrite E1, E2, !rdiv_0_l, E2; reflexivity.
Qed.

Lemma hermite_length dx : forall slope dydx ys,
  length slope = length dx -> length dydx = S (length dx) ->
  length ys = S (length dx) ->
  length (hermite dx slope dydx ys) = length dx.
Proof.
  induction dx as [|h dx IH]; intros [|m slope] [|s0 dydx] [|y0 ys] Hm Hs Hy;
    try discriminate; try reflexivity.
  cbn [hermite]; destruct dydx as [|s1 dydx]; [discriminate|].
  cbn [length]; f_equal; apply IH; simpl in *; lia.
Qed.

Lemma spline_pieces_length xs ys :
  length ys = length xs -> (2 <= length xs)%nat ->
  length (c (spline xs ys)) = (length xs - 1)%nat.
Proof.
  intros Hl Hn; unfold spline; cbn [c].
  assert (Hslope : length (zip_with rdiv (diffQ ys) (diffQ xs))
                   = length (diffQ xs))
    by (rewrite zip_with_length; rewrite !diffQ_length; congruence).
  rewrite hermite_length.
  - apply diffQ_length.
  - exact Hslope.
  - rewrite derivatives_length by assumption.
    rewrite diffQ_length; lia.
  - rewrite diffQ_length; lia.
Qed.

Lemma poly_const c s : poly (0, 0, 0, c) s = Qred c.
Proof.
  unfold poly, radd at 1; apply Qred_complete; exact_arith; ring.
Qed.

Lemma spline_const k xs ys v :
  Forall (eq k) ys -> length ys = length xs -> (2 <= length xs)%nat ->
  evaluate (spline xs ys) (Fin v) = Fin (Qred k).
Proof.
  intros Hc Hl Hn; rewrite evaluate_Fin.
  set (i := find_interval (x (spline xs ys)) (Fin v)).
  assert (Hi : (i < length (c (spline xs ys)))%nat).
  { rewrite spline_pieces_length by assumption.
    unfold i, spline; cbn [x]; apply find_interval_bound; exact Hn. }
  assert (Hp : Forall (eq (0, 0, 0, k)) (c (spline xs ys))).
  { unfold spline; cbn [c]; apply hermite_const; [| |exact Hc].
    - apply slope_zero, (diffQ_const k); exact Hc.
    - apply derivatives_zero, slope_zero, (diffQ_const k); exact Hc. }
  rewrite Forall_forall in Hp.
  rewrite <- (Hp (nth i (c (spline xs ys)) (0, 0, 0, 0)))
    by (apply nth_In; exact Hi).
  rewrite poly_const; reflexivity.
Qed.

(** ** A spectrum without a line *)

Lemma no_line_integrand p lx ly :
  Forall2 (on_continuum p) lx ly ->
  Forall (eq (Fin 0)) (divide_a (subtract_a ly (call p lx)) (call p lx)).
Proof.
  induction 1 as [|v y lx ly (e & He & Hy & Hne) _ IH]; [constructor|].
  unfold divide_a, subtract_a, call in *; cbn [map zip_with].
  constructor; [|exact IH].
  rewrite He; destruct y as [q| | |]; try contradiction; simpl in Hy.
  assert (H0 : subtract (Fin q) (Fin e) = Fin 0).
  { unfold subtract; cbn [negative add]; f_equal.
    apply Qred_zero; lra. }
  rewrite H0; cbn [divide].
  destruct (Qeq_bool e 0) eqn:Hb;
    [apply Qeq_bool_iff in Hb; contradiction|].
  rewrite rdiv_0_l; reflexivity.
Qed.

Lemma trapz_zero y : forall x,
  Forall (eq (Fin 0)) y -> Forall (fun v => isfinite v = true) x ->
  length y = length x -> trapz y x = Fin 0.
Proof.
  induction y as [|y0 y IH]; intros x Hy Hx Hl.
  - apply trapz_short; simpl; lia.
  - destruct y as [|y1 y]; [apply trapz_short; simpl; lia|].
    destruct x as [|x0 [|x1 x]]; try discriminate.
    rewrite trapz_cons, IH.
    + inversion Hy as [|? ? <- Hy1]; inversion Hy1 as [|? ? <- _]; subst.
      inversion Hx as [|? ? Hf0 Hx1]; inversion Hx1 as [|? ? Hf1 _]; subst.
      destruct x0 as [a0| | |], x1 as [a1| | |]; try discriminate.
      cbn [subtract negative add multiply].
      change (radd 0 0) with 0; rewrite rmul_0_r; reflexivity.
    + inversion Hy; assumption.
    + inversion Hx; assumption.
    + simpl in *; lia.
Qed.

Lemma selected_line_finite w :
  Forall (fun v => isfinite v = true) (line_x w).
Proof.
  eapply Forall_impl; [|apply selected_line_in_window].
  intros v Hv; apply in_line_spec in Hv; destruct Hv as (q & -> & _).
  reflexivity.
Qed.

Lemma flux_on_continuum_zero_width (w f : ndarray) (p : PPoly) :
  fit_continuum (rest_frame w z_host) f = Value p ->
  Forall2 (on_continuum p) (line_x w) (line_y w f) ->
  Notebook.equivalent_width w f = Value (Fin 0).
Proof.
  intros Hfit H.
  apply fit_continuum_inv in Hfit; destruct Hfit as [Hl Hcs].
  rewrite rest_frame_length in Hl.
  rewrite (equivalent_width_ok w f Hl); cbv zeta; rewrite Hcs; cbn [bind].
  unfold width_of; cbv zeta; fold (line_x w) (line_y w f).
  rewrite trapz_zero; auto using no_line_integrand, selected_line_finite.
  apply normalized_length, line_y_length; exact Hl.
Qed.

(** Order is kept by the rest-frame conversion and by mask selection. *)

Lemma less_trans u v t :
  less u v = true -> less v t = true -> less u t = true.
Proof.
  destruct u as [a| | |], v as [b| | |], t as [d| | |]; simpl;
    try congruence.
  intros H1 H2; apply less_Fin in H1, H2.
  apply (proj2 (less_Fin a d)); lra.
Qed.

Lemma ascending_tail u a : ascending (u :: a) -> ascending a.
Proof. intros H i x y Hx Hy; apply (H (S i)); assumption. Qed.

Lemma ascending_StronglySorted a :
  ascending a -> StronglySorted (fun u v => less u v = true) a.
Proof.
  induction a as [|u a IH]; intros H; constructor.
  - apply IH, (ascending_tail u); exact H.
  - destruct a as [|v a]; constructor.
    + apply (H 0%nat); reflexivity.
    + assert (Hv : StronglySorted (fun u v => less u v = true) (v :: a))
        by (apply IH, (ascending_tail u); exact H).
      inversion Hv as [|? ? _ Hall]; subst.
      eapply Forall_impl; [|exact Hall].
      intros t Ht; apply (less_trans u v t); [|exact Ht].
      apply (H 0%nat); reflexivity.
Qed.

Lemma StronglySorted_ascending a :
  StronglySorted (fun u v => less u v = true) a -> ascending a.
Proof.
  induction 1 as [|u a Hs IH Hall]; intros i x y Hx Hy.
  - destruct i; discriminate.
  - destruct i as [|i].
    + injection Hx as <-; destruct a as [|v a]; [discriminate|].
      injection Hy as <-; inversion Hall; assumption.
    + apply (IH i); assumption.
Qed.

Lemma Forall_compress {A : Type} (P : A -> Prop) (m : list bool) :
  forall a, Forall P a -> Forall P (compress m a).
Proof.
  induction m as [|b m IH]; intros [|v a] H; try constructor.
  inversion H; subst; cbn [compress].
  destruct b; [constructor|]; auto.
Qed.

Lemma StronglySorted_compress (m : list bool) : forall a,
  StronglySorted (fun u v => less u v = true) a ->
  StronglySorted (fun u v => less u v = true) (compress m a).
Proof.
  induction m as [|b m IH]; intros [|v a] H; try constructor.
  inversion H; subst; cbn [compress].
  destruct b; [constructor|]; auto using Forall_compress.
Qed.

Lemma less_rest_frame u v :
  less u v = true ->
  less (divide u (add (Fin 1) z_host)) (divide v (add (Fin 1) z_host)) = true.
Proof.
  change (add (Fin 1) z_host) with (Fin (105217 # 100000)).
  destruct u as [a| | |], v as [b| | |]; try discriminate; try reflexivity.
  intros H; apply less_Fin in H.
  cbn [divide]; change (Qeq_bool (105217 # 100000) 0) with false; cbv iota.
  apply less_Fin; exact_arith.
  unfold Qdiv; apply Qmult_lt_compat_r; [reflexivity|exact H].
Qed.

Lemma StronglySorted_rest_frame w :
  StronglySorted (fun u v => less u v = true) w ->
  StronglySorted (fun u v => less u v = true) (rest_frame w z_host).
Proof.
  induction 1 as [|u a Hs IH Hall]; [constructor|].
  unfold rest_frame, divide_s in *; cbn [map]; constructor; [exact IH|].
  rewrite Forall_map; eapply Forall_impl; [|exact Hall].
  intros t Ht; apply less_rest_frame; exact Ht.
Qed.

Lemma ascending_continuum w : ascending w -> ascending (continuum_x w).
Proof.
  intros H; apply StronglySorted_ascending, StronglySorted_compress,
    StronglySorted_rest_frame, ascending_StronglySorted; exact H.
Qed.

Lemma Forall2_of_Forall {A B : Type} (P : A -> Prop) (Q : B -> Prop)
      (R : A -> B -> Prop) (a : list A) :
  forall b, length a = length b -> Forall P a -> Forall Q b ->
            (forall u v, P u -> Q v -> R u v) -> Forall2 R a b.
Proof.
  induction a as [|u a IH]; intros [|v b] Hl Ha Hb HR; try discriminate;
    constructor; inversion Ha; inversion Hb; subst; auto.
Qed.

Lemma Forall_repeat {A : Type} (v : A) n : Forall (eq v) (repeat v n).
Proof. induction n; simpl; constructor; auto. Qed.

(** C7.  A spectrum without a line has equivalent width exactly 0: whenever
    the spline is built and the flux equals the (nonzero) spline continuum
    at the samples of the line window; and in particular for every constant
    nonzero flux for which the spline is built, the spline through constant
    samples being that constant. *)
Theorem no_line_zero_width :
  (forall (w f : ndarray) (p : PPoly),
      fit_continuum (rest_frame w z_host) f = Value p ->
      Forall2 (on_continuum p) (line_x w) (line_y w f) ->
      Notebook.equivalent_width w f = Value (Fin 0)) /\
  (forall (w : ndarray) (k : Q) (p : PPoly),
      fit_continuum (rest_frame w z_host) (repeat (Fin k) (length w))
      = Value p ->
      ~ k == 0 ->
      Forall (fun v => evaluate p v = Fin (Qred k)) (line_x w) /\
      Notebook.equivalent_width w (repeat (Fin k) (length w))
      = Value (Fin 0)).
Proof.
  split; [exact flux_on_continuum_zero_width|].
  intros w k p Hfit Hk.
  set (f := repeat (Fin k) (length w)) in *.
  assert (Hl : length w = length f) by (unfold f; rewrite repeat_length; auto).
  assert (Hf : Forall (eq (Fin k)) f) by apply Forall_repeat.
  assert (Hcy : Forall (eq (Fin k)) (continuum_y w f))
    by (apply Forall_compress; exact Hf).
  pose proof Hfit as Hfit'.
  apply fit_continuum_inv in Hfit; destruct Hfit as [_ Hcs].
  fold (continuum_x w) (continuum_y w f) in Hcs.
  apply CubicSpline_inv in Hcs.
  destruct Hcs as (xs & ys & Hxs & Hys & Hn2 & Hlen & Hs & Hp).
  assert (Hys_k : Forall (eq k) ys).
  { rewrite Hys, Forall_map in Hcy; eapply Forall_impl; [|exact Hcy].
    intros y [= ->]; reflexivity. }
  assert (Hval : Forall (fun v => evaluate p v = Fin (Qred k)) (line_x w)).
  { eapply Forall_impl; [|apply selected_line_in_window].
    intros v Hv; apply in_line_spec in Hv; destruct Hv as (q & -> & _).
    rewrite Hp; apply spline_const; auto. }
  split; [exact Hval|].
  apply (flux_on_continuum_zero_width w f p Hfit').
  apply (Forall2_of_Forall (fun v => evaluate p v = Fin (Qred k))
           (eq (Fin k))).
  - symmetry; apply line_y_length; exact Hl.
  - exact Hval.
  - apply Forall_compress; exact Hf.
  - intros v y Hv <-; exists (Qred k); split; [exact Hv|split].
    + simpl; symmetry; apply Qred_correct.
    + rewrite Qred_correct; exact Hk.
Qed.

Lemma no_line_zero_width_witness :
  Notebook.equivalent_width (map observed [4810; 4820; 4860; 4862])
    (map Fin [1; 2; 6; 31 # 5]) = Value (Fin 0) /\
  Forall (fun v => evaluate (spline [4810; 4820; 4855; 4866; 4880]
                               [3; 3; 3; 3; 3]) v = Fin (Qred 3))
    (line_x (map observed [4810; 4820; 4855; 4860; 4862; 4866; 4880])) /\
  Notebook.equivalent_width
    (map observed [4810; 4820; 4855; 4860; 4862; 4866; 4880])
    (repeat (Fin 3)
       (length (map observed [4810; 4820; 4855; 4860; 4862; 4866; 4880])))
  = Value (Fin 0).
Proof.
  split.
  - apply (proj1 no_line_zero_width
             (map observed [4810; 4820; 4860; 4862])
             (map Fin [1; 2; 6; 31 # 5]) (spline [4810; 4820] [1; 2])).
    + reflexivity.
    + repeat constructor; unfold on_continuum; eexists;
        (split; [vm_compute; reflexivity|]);
        (split; [vm_compute; reflexivity|]);
        intros H; vm_compute in H; discriminate.
  - apply (proj2 no_line_zero_width
             (map observed [4810; 4820; 4855; 4860; 4862; 4866; 4880]) 3
             (spline [4810; 4820; 4855; 4866; 4880] [3; 3; 3; 3; 3])).
    + vm_compute; reflexivity.
    + intros H; vm_compute in H; discriminate.
Defined.

(** ** Doubling the line *)

Lemma normalized_Fin y e :
  0 < e ->
  divide (subtract (Fin y) (Fin e)) (Fin e) = Fin (rdiv (radd y (- e)) e).
Proof.
  intros He; cbn [subtract negative add divide].
  destruct (Qeq_bool e 0) eqn:Hb; [|reflexivity].
  apply Qeq_bool_iff in Hb; lra.
Qed.

Lemma trapz_head x0 x1 i0 i1 :
  divide (multiply (subtract (Fin x1) (Fin x0)) (add (Fin i1) (Fin i0)))
    (Fin 2)
  = Fin (rdiv (rmul (radd x1 (- x0)) (radd i1 i0)) 2).
Proof. reflexivity. Qed.

(** The integral is affine in the flux: if at every sample
    [twice - base = 2 * (once - base)], the three integrals satisfy the
    same relation. *)
Lemma trapz_affine : forall xs es base once twice,
  length es = length xs -> length base = length xs ->
  length once = length xs -> length twice = length xs ->
  Forall (fun e => 0 < e) es ->
  (forall k, nth k twice 0 - nth k base 0
             == 2 * (nth k once 0 - nth k base 0)) ->
  exists e0 e1 e2,
    trapz (divide_a (subtract_a (map Fin base) (map Fin es)) (map Fin es))
      (map Fin xs) = Fin e0 /\
    trapz (divide_a (subtract_a (map Fin once) (map Fin es)) (map Fin es))
      (map Fin xs) = Fin e1 /\
    trapz (divide_a (subtract_a (map Fin twice) (map Fin es)) (map Fin es))
      (map Fin xs) = Fin e2 /\
    e2 - e0 == 2 * (e1 - e0).
Proof.
  induction xs as [|x0 xs IH]; intros es base once twice He Hc Ha Hb Hpos H.
  - destruct es, base, once, twice; try discriminate.
    exists 0, 0, 0; repeat split; reflexivity.
  - destruct es as [|e0 es], base as [|c0 base], once as [|a0 once],
        twice as [|b0 twice]; try discriminate.
    destruct xs as [|x1 xs].
    + destruct es, base, once, twice; try discriminate.
      exists 0, 0, 0; repeat split; reflexivity.
    + destruct es as [|e1 es], base as [|c1 base], once as [|a1 once],
          twice as [|b1 twice]; try discriminate.
      inversion Hpos as [|? ? He0 Hpos']; subst.
      assert (He1 : 0 < e1) by (inversion Hpos'; assumption).
      destruct (IH (e1 :: es) (c1 :: base) (a1 :: once) (b1 :: twice))
        as (r0 & r1 & r2 & Hr0 & Hr1 & Hr2 & Hr); auto.
      { intros k; exact (H (S k)). }
      unfold divide_a, subtract_a in *; cbn [map zip_with] in *.
      rewrite !trapz_cons, Hr0, Hr1, Hr2.
      rewrite !(normalized_Fin _ e0 He0), !(normalized_Fin _ e1 He1).
      rewrite !trapz_head; cbn [add].
      do 3 eexists; repeat split; try reflexivity.
      pose proof (H 0%nat) as H0; pose proof (H 1%nat) as H1.
      cbn [nth] in H0, H1.
      assert (Hb0 : b0 == 2 * a0 - c0) by lra.
      assert (Hb1 : b1 == 2 * a1 - c1) by lra.
      assert (Hr2' : r2 == 2 * r1 - r0) by lra.
      exact_arith; rewrite Hb0, Hb1, Hr2'; field; split; lra.
Qed.

Lemma positive_continuum_values (p : PPoly) (lx : ndarray) :
  Forall (fun v => exists e, evaluate p v = Fin e /\ 0 < e) lx ->
  exists es, call p lx = map Fin es /\ Forall (fun e => 0 < e) es /\
             length es = length lx.
Proof.
  induction 1 as [|v lx (e & He & Hpos) _ (es & Hes & Hall & Hlen)].
  - exists []; repeat split; constructor.
  - exists (e :: es); unfold call in *; cbn [map length].
    rewrite He, Hes, Hlen; repeat split; constructor; assumption.
Qed.

(** The width is affine in the excess over any baseline.  Let [cont] be a
    baseline spectrum with spline continuum [p], positive at the samples of
    the line window, and let [f1] and [f2] equal [cont] on the continuum
    windows and carry once and twice the same finite excess over [cont] in
    the line window.  Then the three equivalent widths are finite and
    [ew f2 - ew cont = 2 * (ew f1 - ew cont)]; the width doubles exactly
    when the spline reproduces the baseline at the line samples. *)
Lemma line_amplitude_affine (w cont f1 f2 : ndarray) (p : PPoly)
        (base once twice : list Q) :
  fit_continuum (rest_frame w z_host) cont = Value p ->
  length f1 = length w -> length f2 = length w ->
  continuum_y w f1 = continuum_y w cont ->
  continuum_y w f2 = continuum_y w cont ->
  line_y w cont = map Fin base ->
  line_y w f1 = map Fin once ->
  line_y w f2 = map Fin twice ->
  (forall k, nth k twice 0 - nth k base 0
             == 2 * (nth k once 0 - nth k base 0)) ->
  Forall (fun v => exists e, evaluate p v = Fin e /\ 0 < e) (line_x w) ->
  exists e0 e1 e2,
    Notebook.equivalent_width w cont = Value (Fin e0) /\
    Notebook.equivalent_width w f1 = Value (Fin e1) /\
    Notebook.equivalent_width w f2 = Value (Fin e2) /\
    e2 - e0 == 2 * (e1 - e0) /\
    (Forall2 (on_continuum p) (line_x w) (line_y w cont) ->
     e0 = 0 /\ e2 == 2 * e1).
Proof.
  intros Hfit Hl1 Hl2 Hc1 Hc2 Hbase Honce Htwice Hrel Hpos.
  pose proof Hfit as Hfit'.
  apply fit_continuum_inv in Hfit; destruct Hfit as [Hl Hcs].
  rewrite rest_frame_length in Hl.
  fold (continuum_x w) (continuum_y w cont) in Hcs.
  destruct (as_finite_total _ (selected_line_finite w)) as [xs Hxs].
  apply as_finite_Some in Hxs.
  destruct (positive_continuum_values p (line_x w) Hpos)
    as (es & Hes & Hespos & Hlen).
  assert (Hnx : length xs = length (line_x w))
    by (rewrite Hxs, length_map; reflexivity).
  assert (Hlb : length base = length xs).
  { rewrite Hnx, <- (line_y_length w cont Hl), Hbase, length_map; auto. }
  assert (Hlo : length once = length xs).
  { rewrite Hnx, <- (line_y_length w f1 (eq_sym Hl1)), Honce, length_map.
    reflexivity. }
  assert (Hlt : length twice = length xs).
  { rewrite Hnx, <- (line_y_length w f2 (eq_sym Hl2)), Htwice, length_map.
    reflexivity. }
  destruct (trapz_affine xs es base once twice) as
    (e0 & e1 & e2 & He0 & He1 & He2 & Hr); auto; [congruence|].
  assert (Hw0 : Notebook.equivalent_width w cont = Value (Fin e0)).
  { rewrite (equivalent_width_with w cont p Hl Hcs); unfold width_of.
    cbv zeta; fold (line_x w) (line_y w cont).
    rewrite Hes, Hbase, Hxs, He0; reflexivity. }
  exists e0, e1, e2; repeat split; auto.
  - rewrite (equivalent_width_with w f1 p (eq_sym Hl1))
      by (rewrite Hc1; exact Hcs).
    unfold width_of; cbv zeta; fold (line_x w) (line_y w f1).
    rewrite Hes, Honce, Hxs, He1; reflexivity.
  - rewrite (equivalent_width_with w f2 p (eq_sym Hl2))
      by (rewrite Hc2; exact Hcs).
    unfold width_of; cbv zeta; fold (line_x w) (line_y w f2).
    rewrite Hes, Htwice, Hxs, He2; reflexivity.
  - pose proof (flux_on_continuum_zero_width w cont p Hfit' H) as Hz.
    rewrite Hw0 in Hz; injection Hz as ->; reflexivity.
  - pose proof (flux_on_continuum_zero_width w cont p Hfit' H) as Hz.
    rewrite Hw0 in Hz; injection Hz as Hz; rewrite Hz in Hr; lra.
Qed.




(** The baseline of [line_amplitude_affine] must be the spline continuum
    for the width to double.  Here the baseline is 1 on the continuum
    windows and 2 inside the line, the excess [g] is 1 inside the line and
    vanishes on the continuum windows, and the spline continuum is the
    constant 1: the widths of the baseline, of baseline + g and of
    baseline + 2 g are 2, 4 and 6. *)
Lemma affine_off_baseline :
  let w := map observed [4810; 4820; 4860; 4862] in
  let cont := map Fin [1; 1; 2; 2] in
  let g := map Fin [0; 0; 1; 1] in
  continuum_y w g = [Fin 0; Fin 0] /\
  fit_continuum (rest_frame w z_host) cont
  = Value (spline [4810; 4820] [1; 1]) /\
  call (spline [4810; 4820] [1; 1]) (line_x w) = [Fin 1; Fin 1] /\
  Notebook.equivalent_width w cont = Value (Fin 2) /\
  Notebook.equivalent_width w (add_a cont g) = Value (Fin 4) /\
  Notebook.equivalent_width w (add_a cont (add_a g g)) = Value (Fin 6).
Proof. vm_compute; repeat split. Qed.

(** * Further properties of the measurement cells *)

(** ** When the cells return a value *)

Lemma Forall_finite_map_Fin qs :
  Forall (fun v => isfinite v = true) (map Fin qs).
Proof. rewrite Forall_map; apply Forall_forall; reflexivity. Qed.

(** X1.  The spline constructor is the only point of failure: the three
    cells return a value exactly when [cs] can be built from the arrays; and
    then the arrays have one length and the continuum windows select at
    least two samples, with finite flux and strictly increasing rest
    wavelengths. *)
Theorem equivalent_width_succeeds_iff (w f : ndarray) :
  ((exists v, Notebook.equivalent_width w f = Value v) <->
   (exists p, fit_continuum (rest_frame w z_host) f = Value p)) /\
  ((exists v, Notebook.equivalent_width w f = Value v) ->
   length w = length f /\
   (2 <= length (continuum_x w))%nat /\
   Forall (fun v => isfinite v = true) (continuum_y w f) /\
   ascending (continuum_x w)).
Proof.
  assert (Hinv : forall v, Notebook.equivalent_width w f = Value v ->
                 length w = length f /\
                 exists p, CubicSpline (continuum_x w) (continuum_y w f)
                           = Value p).
  { intros v Hv.
    destruct (Nat.eq_dec (length w) (length f)) as [Hl|Hl];
      [|rewrite (equivalent_width_mismatch w f Hl) in Hv; discriminate].
    split; [exact Hl|].
    rewrite (equivalent_width_ok w f Hl) in Hv; cbv zeta in Hv.
    fold (continuum_x w) (continuum_y w f) in Hv.
    destruct (CubicSpline (continuum_x w) (continuum_y w f)) as [p|e];
      [eauto|discriminate]. }
  split; [split|].
  - intros [v Hv]; destruct (Hinv v Hv) as (Hl & p & Hcs).
    exists p; rewrite fit_continuum_ok
      by (rewrite rest_frame_length; exact Hl).
    exact Hcs.
  - intros [p Hfit].
    apply fit_continuum_inv in Hfit; destruct Hfit as [Hl Hcs].
    rewrite rest_frame_length in Hl.
    eexists; apply (equivalent_width_with w f p Hl Hcs).
  - intros [v Hv]; destruct (Hinv v Hv) as (Hl & p & Hcs).
    apply CubicSpline_inv in Hcs.
    destruct Hcs as (xs & ys & Hxs & Hys & Hn & _ & Hs & _).
    rewrite Hxs, Hys, length_map; repeat split; auto.
    + apply Forall_finite_map_Fin.
    + apply ascending_strictly_increasing; exact Hs.
Qed.

(** ** Edge cases of the integration *)

Lemma equivalent_width_value_inv (w f : ndarray) (v : float64) :
  Notebook.equivalent_width w f = Value v ->
  length w = length f /\
  exists p, CubicSpline (continuum_x w) (continuum_y w f) = Value p /\
            v = width_of (rest_frame w z_host) f p.
Proof.
  intros Hv.
  destruct (Nat.eq_dec (length w) (length f)) as [Hl|Hl];
    [|rewrite (equivalent_width_mismatch w f Hl) in Hv; discriminate].
  split; [exact Hl|].
  rewrite (equivalent_width_ok w f Hl) in Hv; cbv zeta in Hv.
  fold (continuum_x w) (continuum_y w f) in Hv.
  destruct (CubicSpline (continuum_x w) (continuum_y w f)) as [p|e];
    [|discriminate].
  injection Hv as <-; exists p; split; reflexivity.
Qed.

(** X2.  With fewer than two samples inside the line window there is
    nothing to integrate: whenever the cells return a value, it is 0. *)
Theorem few_line_samples_zero_width (w f : ndarray) (v : float64) :
  Notebook.equivalent_width w f = Value v ->
  (length (line_x w) < 2)%nat ->
  v = Fin 0.
Proof.
  intros Hv Hn.
  destruct (equivalent_width_value_inv w f v Hv) as (Hl & p & _ & ->).
  unfold width_of; cbv zeta; fold (line_x w) (line_y w f).
  apply trapz_short.
  rewrite normalized_length; auto using line_y_length.
Qed.

Lemma few_line_samples_zero_width_witness :
  Notebook.equivalent_width (map observed [4810; 4820; 4830; 4862; 4880])
    (map Fin [1; 2; 1; 9; 3]) = Value (Fin 0) /\
  line_x (map observed [4810; 4820; 4830; 4862; 4880]) = [Fin 4862] /\
  Fin 0 = Fin 0.
Proof.
  split; [vm_compute; reflexivity|split; [vm_compute; reflexivity|]].
  apply (few_line_samples_zero_width
           (map observed [4810; 4820; 4830; 4862; 4880])
           (map Fin [1; 2; 1; 9; 3]) (Fin 0)).
  - vm_compute; reflexivity.
  - vm_compute; lia.
Defined.

Lemma normalized_nonfinite_flux (g : float64 -> float64) (lx : ndarray) :
  forall ly, length ly = length lx ->
             Exists (fun y => isfinite y = false) ly ->
             Exists (fun t => isfinite t = false)
               (divide_a (subtract_a ly (map g lx)) (map g lx)).
Proof.
  induction lx as [|x lx IH]; intros [|y ly] Hl He; simpl in *;
    try discriminate; [inversion He|].
  inversion He as [? ? Hy|? ? Hrest]; subst.
  - left; apply divide_nonfinite_l, add_nonfinite_l; exact Hy.
  - right; apply IH; [lia|exact Hrest].
Qed.

(** X3.  A flux that is NaN or infinite at a sample inside the line window
    is not caught: when the cells return a value and the line window holds
    at least two samples, the value is not finite. *)
Theorem nonfinite_line_flux_propagates (w f : ndarray) (v : float64) :
  Notebook.equivalent_width w f = Value v ->
  (2 <= length (line_x w))%nat ->
  Exists (fun y => isfinite y = false) (line_y w f) ->
  isfinite v = false.
Proof.
  intros Hv Hn He.
  destruct (equivalent_width_value_inv w f v Hv) as (Hl & p & _ & ->).
  unfold width_of; cbv zeta; fold (line_x w) (line_y w f).
  pose proof (line_y_length w f Hl) as Hly.
  apply trapz_nonfinite.
  - rewrite normalized_length; auto.
  - rewrite normalized_length; auto.
  - apply normalized_nonfinite_flux; assumption.
Qed.

Lemma nonfinite_line_flux_propagates_witness :
  Notebook.equivalent_width
    (map observed [4810; 4820; 4860; 4862; 4864; 4880])
    [Fin 1; Fin 1; Fin 2; NaN; Fin 2; Fin 1] = Value NaN /\
  isfinite NaN = false.
Proof.
  split; [vm_compute; reflexivity|].
  apply (nonfinite_line_flux_propagates
           (map observed [4810; 4820; 4860; 4862; 4864; 4880])
           [Fin 1; Fin 1; Fin 2; NaN; Fin 2; Fin 1] NaN).
  - vm_compute; reflexivity.
  - vm_compute; lia.
  - right; left; reflexivity.
Defined.

Lemma as_finite_nonfinite a :
  Exists (fun v => isfinite v = false) a -> as_finite a = None.
Proof.
  induction 1 as [v a Hv|v a _ IH]; simpl.
  - destruct v; try discriminate; reflexivity.
  - rewrite IH; destruct v; reflexivity.
Qed.

(** X4.  A flux that is NaN or infinite at a sample inside a continuum
    window stops the notebook: on arrays of one length with at least two
    continuum samples, the spline constructor raises its [ValueError] for a
    non-finite [y]. *)
Theorem nonfinite_continuum_flux_raises (w f : ndarray) :
  length w = length f ->
  (2 <= length (continuum_x w))%nat ->
  Exists (fun y => isfinite y = false) (continuum_y w f) ->
  Notebook.equivalent_width w f = Raise (ValueError NonFiniteY).
Proof.
  intros Hl Hn He.
  destruct (selected_continuum_as_finite (rest_frame w z_host)) as [xs Hxs].
  fold (continuum_x w) in Hxs.
  assert (Hlen : length (continuum_x w) = length (continuum_y w f))
    by (apply compress_same_length; rewrite rest_frame_length; exact Hl).
  rewrite (equivalent_width_ok w f Hl); cbv zeta.
  fold (continuum_x w) (continuum_y w f); unfold CubicSpline.
  destruct (Nat.ltb_spec (length (continuum_x w)) 2); [lia|].
  rewrite Hlen, Nat.eqb_refl; cbn [negb].
  rewrite Hxs, as_finite_map_Fin, (as_finite_nonfinite _ He); reflexivity.
Qed.

Lemma nonfinite_continuum_flux_raises_witness :
  Notebook.equivalent_width (map observed [4810; 4820; 4860; 4880])
    [Fin 1; PInf; Fin 2; Fin 1] = Raise (ValueError NonFiniteY).
Proof.
  apply (nonfinite_continuum_flux_raises
           (map observed [4810; 4820; 4860; 4880])
           [Fin 1; PInf; Fin 2; Fin 1]).
  - reflexivity.
  - vm_compute; lia.
  - right; left; reflexivity.
Defined.

(** ** The cells and the namespace *)

(** X5.  Re-running the three cells on the namespace they produced changes
    nothing: a successful run is a fixed point of the run. *)
Theorem run_idempotent (ns ns' : namespace) :
  run ns = Value ns' -> run ns' = Value ns'.
Proof.
  intros H.
  destruct (Nat.eq_dec (length (wave ns)) (length (flux ns))) as [Hl|Hl];
    [|rewrite (run_mismatch ns Hl) in H; discriminate].
  rewrite (run_ok ns Hl) in H; cbv zeta in H.
  destruct (CubicSpline _ _) as [p|e] eqn:Hcs; [|discriminate].
  cbn [bind] in H; injection H as <-.
  match goal with
  | |- run ?n = _ =>
      assert (Hl' : length (wave n) = length (flux n)) by exact Hl;
      rewrite (run_ok n Hl')
  end.
  cbv zeta; cbn [wave flux z]; rewrite Hcs; reflexivity.
Qed.

Lemma run_idempotent_witness :
  let w := map observed [4810; 4820; 4860; 4862] in
  let f := map Fin [1; 1; 2; 2] in
  let rw := rest_frame w z_host in
  let p := spline [4810; 4820] [1; 1] in
  let ns1 :=
    mkNamespace w f z_host (Some rw) (Some (mask_iwave rw))
      (Some (mask_noline rw)) (Some p) (Some (mask_lineonly rw))
      (Some (linesub_of w f p)) (Some (Fin 2)) in
  run ns1 = Value ns1.
Proof.
  cbv zeta.
  apply (run_idempotent
           (loaded (map observed [4810; 4820; 4860; 4862])
              (map Fin [1; 1; 2; 2]))).
  vm_compute; reflexivity.
Defined.

Lemma cell_binds (c : cell_id) (ns ns' : namespace) :
  cell c ns = Value ns' ->
  (restwave ns' = None -> restwave ns = None /\ c <> RestFrame) /\
  (cs ns' = None -> cs ns = None /\ c <> Continuum) /\
  (c = Continuum -> restwave ns <> None) /\
  (c = Line -> cs ns <> None).
Proof.
  destruct c; cbn [cell].
  - unfold cell_rest_frame.
    destruct (getitem _ _); cbn [bind]; [|discriminate].
    destruct (getitem _ _); cbn [bind]; [|discriminate].
    intros [= <-]; cbn [restwave cs].
    repeat split; try discriminate; auto.
  - unfold cell_continuum.
    destruct (restwave ns) as [rw|] eqn:Hrw; cbn [lookup bind];
      [|discriminate].
    destruct (fit_continuum _ _); cbn [bind]; [|discriminate].
    destruct (lookup (iwave ns)); cbn [bind]; [|discriminate].
    destruct (getitem _ _); cbn [bind]; [|discriminate].
    destruct (getitem _ _); cbn [bind]; [|discriminate].
    intros [= <-]; cbn [restwave cs].
    repeat split; try discriminate; try congruence; auto.
  - unfold cell_line.
    destruct (restwave ns) as [rw|] eqn:Hrw; cbn [lookup bind];
      [|discriminate].
    destruct (cs ns) as [p|] eqn:Hp.
    2:{ unfold line_excess; destruct (getitem _ _); discriminate. }
    destruct (line_excess _ _ _); cbn [lookup bind]; [|discriminate].
    destruct (line_width _ _ _); cbn [bind]; [|discriminate].
    intros [= <-]; cbn [restwave cs].
    repeat split; try discriminate; try congruence; auto.
Qed.

Lemma run_cells_needs_rest_frame (order : list cell_id) :
  forall ns ns' pre post,
    run_cells order ns = Value ns' -> restwave ns = None ->
    order = pre ++ Continuum :: post -> In RestFrame pre.
Proof.
  induction order as [|c order IH]; intros ns ns' pre post Hrun Hnone Heq.
  - destruct pre; discriminate.
  - cbn [run_cells] in Hrun.
    destruct (cell c ns) as [ns1|e] eqn:Hc; [|discriminate].
    cbn [bind] in Hrun.
    destruct (cell_binds c ns ns1 Hc) as (Hr & _ & Hcont & _).
    destruct pre as [|c' pre]; cbn [app] in Heq; injection Heq as -> ->.
    + exfalso; apply Hcont; auto.
    + destruct c'; [left; reflexivity| |];
        right; apply (IH ns1 ns' pre post Hrun); auto;
        destruct (restwave ns1) eqn:H1; auto;
        unfold cell, cell_continuum, cell_line in Hc;
        rewrite Hnone in Hc; discriminate.
Qed.

Lemma run_cells_needs_continuum (order : list cell_id) :
  forall ns ns' pre post,
    run_cells order ns = Value ns' -> cs ns = None ->
    order = pre ++ Line :: post -> In Continuum pre.
Proof.
  induction order as [|c order IH]; intros ns ns' pre post Hrun Hnone Heq.
  - destruct pre; discriminate.
  - cbn [run_cells] in Hrun.
    destruct (cell c ns) as [ns1|e] eqn:Hc; [|discriminate].
    cbn [bind] in Hrun.
    destruct (cell_binds c ns ns1 Hc) as (_ & _ & _ & Hline).
    destruct pre as [|c' pre]; cbn [app] in Heq; injection Heq as -> ->.
    + exfalso; apply Hline; auto.
    + destruct c'; [|left; reflexivity|];
        right; apply (IH ns1 ns' pre post Hrun); auto.
      * unfold cell, cell_rest_frame in Hc.
        destruct (getitem _ _); cbn [bind] in Hc; [|discriminate].
        destruct (getitem _ _); cbn [bind] in Hc; [|discriminate].
        injection Hc as <-; exact Hnone.
      * exfalso; apply Hline; auto.
Qed.

(** X6.  Starting from the freshly loaded spectrum, the cells can be run in
    any order and any number of times, but a run that completes has run the
    rest-frame cell before every run of the continuum cell, and the
    continuum cell before every run of the line cell; in any other order
    the run stops with an exception. *)
Theorem cells_order_forced (w f : ndarray) (order : list cell_id)
        (ns' : namespace) :
  run_cells order (loaded w f) = Value ns' ->
  (forall pre post, order = pre ++ Continuum :: post -> In RestFrame pre) /\
  (forall pre post, order = pre ++ Line :: post -> In Continuum pre).
Proof.
  intros Hrun; split; intros pre post Heq.
  - apply (run_cells_needs_rest_frame order (loaded w f) ns' pre post);
      auto.
  - apply (run_cells_needs_continuum order (loaded w f) ns' pre post);
      auto.
Qed.

Lemma cells_order_forced_witness :
  (forall pre post,
      [RestFrame; Continuum; RestFrame; Line; Line]
      = pre ++ Continuum :: post -> In RestFrame pre) /\
  (forall pre post,
      [RestFrame; Continuum; RestFrame; Line; Line]
      = pre ++ Line :: post -> In Continuum pre).
Proof.
  eapply (cells_order_forced (map observed [4810; 4820; 4860; 4862])
            (map Fin [1; 1; 2; 2])
            [RestFrame; Continuum; RestFrame; Line; Line]).
  vm_compute; reflexivity.
Defined.

(** The notebook's own order is [run]. *)
Lemma run_is_notebook_order ns :
  run_cells [RestFrame; Continuum; Line] ns = run ns.
Proof.
  unfold run; cbn [run_cells cell].
  destruct (cell_rest_frame ns); cbn [bind]; [|reflexivity].
  destruct (cell_continuum a); cbn [bind]; [|reflexivity].
  destruct (cell_line a0); reflexivity.
Qed.

(** ** The three masks *)

Lemma nth_map_bool {A : Type} (g : A -> bool) (a : list A) (i : nat) :
  nth i (map g a) false = true <->
  exists v, nth_error a i = Some v /\ g v = true.
Proof.
  split; [apply nth_map_true|].
  revert i; induction a as [|u a IH]; intros [|i] (v & Hv & Hg); simpl in *;
    try discriminate.
  - injection Hv as ->; exact Hg.
  - apply IH; eauto.
Qed.

(** X8.  The plotted window (4800, 4900) is split in two by the continuum
    mask: a sample is selected by [iwave] exactly when it is selected by
    [iwave_noline] or its rest wavelength lies in the closed gap
    [4858, 4865], never both; and every sample of the line window is
    selected by [iwave]. *)
Theorem plotted_window_split (rw : ndarray) (i : nat) :
  (nth i (mask_iwave rw) false = true <->
   nth i (mask_noline rw) false = true \/
   exists q, nth_error rw i = Some (Fin q) /\ 4858 <= q /\ q <= 4865) /\
  ~ (nth i (mask_noline rw) false = true /\
     exists q, nth_error rw i = Some (Fin q) /\ 4858 <= q /\ q <= 4865) /\
  (nth i (mask_lineonly rw) false = true ->
   nth i (mask_iwave rw) false = true).
Proof.
  unfold mask_iwave; rewrite window_pointwise, mask_noline_pointwise,
    mask_lineonly_pointwise, !nth_map_bool.
  split; [split|split].
  - intros (v & Hv & Hw); apply in_window_spec in Hw.
    destruct Hw as (q & -> & Hlo & Hhi).
    destruct (Qlt_le_dec q 4858) as [H1|H1].
    + left; exists (Fin q); split; [exact Hv|].
      apply in_continuum_spec; exists q; auto.
    + destruct (Qlt_le_dec 4865 q) as [H2|H2].
      * left; exists (Fin q); split; [exact Hv|].
        apply in_continuum_spec; exists q; auto.
      * right; exists q; auto.
  - intros [(v & Hv & Hc)|(q & Hv & Hlo & Hhi)].
    + exists v; split; [exact Hv|].
      apply in_continuum_spec in Hc; destruct Hc as (q & -> & Hq).
      apply in_window_spec; exists q; split; [reflexivity|].
      destruct Hq as [[? ?]|[? ?]]; split; lra.
    + exists (Fin q); split; [exact Hv|].
      apply in_window_spec; exists q; split; [reflexivity|split; lra].
  - intros [(v & Hv & Hc) (q & Hq & Hlo & Hhi)].
    rewrite Hv in Hq; injection Hq as ->.
    apply in_continuum_spec in Hc; destruct Hc as (q' & [= <-] & Hq').
    destruct Hq' as [[? ?]|[? ?]]; lra.
  - intros (v & Hv & Hl); exists v; split; [exact Hv|].
    apply in_line_spec in Hl; destruct Hl as (q & -> & Hlo & Hhi).
    apply in_window_spec; exists q; split; [reflexivity|split; lra].
Qed.

(** ** Only the plotted window matters *)

Lemma compress_nil_r {A : Type} (m : list bool) : compress m (@nil A) = [].
Proof. destruct m; reflexivity. Qed.

Lemma compress_map_comm {A B : Type} (g : A -> B) (m : list bool) :
  forall a, compress m (map g a) = map g (compress m a).
Proof.
  induction m as [|b m IH]; intros [|v a]; try reflexivity.
  cbn [map compress]; destruct b; cbn [map]; rewrite IH; reflexivity.
Qed.

Lemma compress_nested {A B : Type} (g h : A -> bool) :
  (forall v, g v = true -> h v = true) ->
  forall (a : list A) (b : list B),
    compress (map g (compress (map h a) a)) (compress (map h a) b)
    = compress (map g a) b.
Proof.
  intros Hgh; induction a as [|u a IH]; intros [|v b]; try reflexivity.
  - cbn [map compress]; rewrite compress_nil_r.
    destruct (g u); reflexivity.
  - cbn [map compress].
    destruct (h u) eqn:Hh.
    + cbn [map compress]; destruct (g u); rewrite IH; reflexivity.
    + destruct (g u) eqn:Hg; [rewrite (Hgh u Hg) in Hh; discriminate|].
      apply IH.
Qed.

Lemma in_continuum_plotted v :
  Spec.in_continuum v = true -> Spec.in_window 4800 4900 v = true.
Proof.
  intros H; apply in_continuum_spec in H; destruct H as (q & -> & Hq).
  apply in_window_spec; exists q; split; [reflexivity|].
  destruct Hq as [[? ?]|[? ?]]; split; lra.
Qed.

Lemma in_line_plotted v :
  Spec.in_line v = true -> Spec.in_window 4800 4900 v = true.
Proof.
  intros H; apply in_line_spec in H; destruct H as (q & -> & ? & ?).
  apply in_window_spec; exists q; split; [reflexivity|split; lra].
Qed.

(** X10.  The measurement depends only on the samples the first cell plots:
    dropping from both arrays every sample whose rest wavelength is outside
    (4800, 4900) (or is NaN) changes neither the value nor the
    exception. *)
Theorem only_plotted_window_matters (w f : ndarray) :
  length w = length f ->
  Notebook.equivalent_width
    (compress (mask_iwave (rest_frame w z_host)) w)
    (compress (mask_iwave (rest_frame w z_host)) f)
  = Notebook.equivalent_width w f.
Proof.
  intros Hl.
  set (rw := rest_frame w z_host).
  set (m := mask_iwave rw).
  assert (Hl' : length (compress m w) = length (compress m f))
    by (apply compress_same_length; exact Hl).
  rewrite (equivalent_width_ok _ _ Hl'), (equivalent_width_ok w f Hl).
  cbv zeta; fold rw.
  assert (Hrw : rest_frame (compress m w) z_host = compress m rw).
  { unfold rw, rest_frame, divide_s; symmetry; apply compress_map_comm. }
  rewrite Hrw; unfold m, mask_iwave; rewrite window_pointwise.
  unfold width_of; cbv zeta.
  rewrite !mask_noline_pointwise, !mask_lineonly_pointwise.
  rewrite !(compress_nested Spec.in_continuum _ in_continuum_plotted).
  rewrite !(compress_nested Spec.in_line _ in_line_plotted).
  reflexivity.
Qed.

Lemma only_plotted_window_matters_witness :
  Notebook.equivalent_width
    (compress
       (mask_iwave
          (rest_frame
             (Fin 3 :: NaN :: map observed [4810; 4820; 4860; 4862; 5000])
             z_host))
       (Fin 3 :: NaN :: map observed [4810; 4820; 4860; 4862; 5000]))
    (compress
       (mask_iwave
          (rest_frame
             (Fin 3 :: NaN :: map observed [4810; 4820; 4860; 4862; 5000])
             z_host))
       (map Fin [7; 8; 1; 1; 2; 2; 9]))
  = Notebook.equivalent_width
      (Fin 3 :: NaN :: map observed [4810; 4820; 4860; 4862; 5000])
      (map Fin [7; 8; 1; 1; 2; 2; 9]).
Proof.
  apply (only_plotted_window_matters
           (Fin 3 :: NaN :: map observed [4810; 4820; 4860; 4862; 5000])
           (map Fin [7; 8; 1; 1; 2; 2; 9])).
  reflexivity.
Defined.

(** ** The sign of the width *)

Lemma ascending_line w : ascending w -> ascending (line_x w).
Proof.
  intros H; apply StronglySorted_ascending, StronglySorted_compress,
    StronglySorted_rest_frame, ascending_StronglySorted; exact H.
Qed.

Lemma trapz_nonnegative : forall xs ys,
  strictly_increasing xs = true -> Forall (fun i => 0 <= i) ys ->
  length ys = length xs ->
  exists r, trapz (map Fin ys) (map Fin xs) = Fin r /\ 0 <= r.
Proof.
  induction xs as [|x0 xs IH]; intros ys Hs Hpos Hl.
  - destruct ys; [|discriminate]; exists 0; split; [reflexivity|lra].
  - destruct ys as [|i0 ys]; [discriminate|].
    destruct xs as [|x1 xs].
    + destruct ys; [|discriminate]; exists 0; split; [reflexivity|lra].
    + destruct ys as [|i1 ys]; [discriminate|].
      pose proof (strictly_increasing_head _ _ _ Hs) as H01.
      inversion Hpos as [|? ? Hi0 Hpos']; subst.
      assert (Hi1 : 0 <= i1) by (inversion Hpos'; assumption).
      destruct (IH (i1 :: ys) (strictly_increasing_tail _ _ Hs) Hpos')
        as (r & Hr & Hr0); [simpl in *; lia|].
      cbn [map] in *; rewrite trapz_cons, Hr, trapz_head; cbn [add].
      eexists; split; [reflexivity|].
      exact_arith.
      assert (Hp : 0 <= (x1 + - x0) * (i1 + i0))
        by (apply Qmult_le_0_compat; lra).
      setoid_replace ((x1 + - x0) * (i1 + i0) / 2)
        with ((x1 + - x0) * (i1 + i0) * (1 # 2)) by field.
      lra.
Qed.

Lemma emission_integrand (p : PPoly) (lx ly : ndarray) :
  Forall2 (in_emission p) lx ly ->
  exists ys, divide_a (subtract_a ly (call p lx)) (call p lx) = map Fin ys /\
             Forall (fun i => 0 <= i) ys /\ length ys = length lx.
Proof.
  unfold divide_a, subtract_a, call.
  induction 1 as [|v y lx ly (e & q & He & Hpos & -> & Hle) _
                    (ys & Hys & Hall & Hlen)].
  - exists []; repeat split; constructor.
  - exists (rdiv (radd q (- e)) e :: ys); cbn [map zip_with length].
    rewrite He, Hys, Hlen, (normalized_Fin q e Hpos).
    repeat split; constructor; [|exact Hall].
    exact_arith.
    setoid_replace ((q + - e) / e) with ((q + - e) * / e) by reflexivity.
    apply Qmult_le_0_compat; [lra|].
    apply Qlt_le_weak, Qinv_lt_0_compat; exact Hpos.
Qed.

(** X12.  Emission never counts negative: on ascending wavelengths, when
    at every sample of the line window the spline continuum is finite and
    positive and the (finite) flux is not below it, the cells return a
    width, and it is not below zero. *)
Theorem emission_width_nonnegative (w f : ndarray) (p : PPoly) :
  fit_continuum (rest_frame w z_host) f = Value p ->
  ascending w ->
  Forall2 (in_emission p) (line_x w) (line_y w f) ->
  exists v, Notebook.equivalent_width w f = Value v /\
            less v (Fin 0) = false.
Proof.
  intros Hfit Hasc Hem.
  apply fit_continuum_inv in Hfit; destruct Hfit as [Hl Hcs].
  rewrite rest_frame_length in Hl.
  fold (continuum_x w) (continuum_y w f) in Hcs.
  destruct (as_finite_total _ (selected_line_finite w)) as [xs Hxs].
  apply as_finite_Some in Hxs.
  destruct (emission_integrand p _ _ Hem) as (ys & Hys & Hpos & Hlen).
  assert (Hs : strictly_increasing xs = true).
  { apply ascending_strictly_increasing; rewrite <- Hxs.
    apply ascending_line; exact Hasc. }
  destruct (trapz_nonnegative xs ys Hs Hpos) as (r & Hr & Hr0).
  { rewrite Hlen, Hxs, length_map; reflexivity. }
  exists (Fin r); split.
  2:{ cbn [less]; destruct (Qcompare_spec r 0); try reflexivity; lra. }
  rewrite (equivalent_width_with w f p Hl Hcs); unfold width_of; cbv zeta.
  fold (line_x w) (line_y w f); rewrite Hys.
  rewrite Hxs at 1; rewrite Hr; reflexivity.
Qed.

Lemma emission_width_nonnegative_witness :
  exists v,
    Notebook.equivalent_width
      (map observed [4810; 4820; 4855; 4860; 4862; 4866; 4880])
      (map Fin [1; 2; 11 # 2; 8; 9; 33 # 5; 8]) = Value v /\
    less v (Fin 0) = false.
Proof.
  apply (emission_width_nonnegative
           (map observed [4810; 4820; 4855; 4860; 4862; 4866; 4880])
           (map Fin [1; 2; 11 # 2; 8; 9; 33 # 5; 8])
           (spline [4810; 4820; 4855; 4866; 4880] [1; 2; 11 # 2; 33 # 5; 8])).
  - vm_compute; reflexivity.
  - ascending_by_cases.
  - assert (E : line_x
                  (map observed [4810; 4820; 4855; 4860; 4862; 4866; 4880])
                = map Fin [4855; 4860; 4862; 4866]) by reflexivity.
    assert (F : line_y
                  (map observed [4810; 4820; 4855; 4860; 4862; 4866; 4880])
                  (map Fin [1; 2; 11 # 2; 8; 9; 33 # 5; 8])
                = map Fin [11 # 2; 8; 9; 33 # 5]) by reflexivity.
    rewrite E, F.
    repeat (constructor;
            [unfold in_emission; do 2 eexists;
             split; [vm_compute; reflexivity|];
             split; [reflexivity|];
             split; [reflexivity|];
             vm_compute; discriminate|]).
    constructor.
Defined.

(** ** A spectrum stored in descending order *)

Lemma descending_StronglySorted a :
  descending a -> StronglySorted (fun u v => less v u = true) a.
Proof.
  induction a as [|u a IH]; intros H; constructor.
  - apply IH; intros i x y Hx Hy; apply (H (S i)); assumption.
  - destruct a as [|v a]; constructor.
    + apply (H 0%nat); reflexivity.
    + assert (Hv : StronglySorted (fun u v => less v u = true) (v :: a))
        by (apply IH; intros i x y Hx Hy; apply (H (S i)); assumption).
      inversion Hv as [|? ? _ Hall]; subst.
      eapply Forall_impl; [|exact Hall].
      intros t Ht; apply (less_trans t v u); [exact Ht|].
      apply (H 0%nat); reflexivity.
Qed.

Lemma StronglySorted_compress_desc (m : list bool) : forall a,
  StronglySorted (fun u v => less v u = true) a ->
  StronglySorted (fun u v => less v u = true) (compress m a).
Proof.
  induction m as [|b m IH]; intros [|v a] H; try constructor.
  inversion H; subst; cbn [compress].
  destruct b; [constructor|]; auto using Forall_compress.
Qed.

Lemma StronglySorted_rest_frame_desc w :
  StronglySorted (fun u v => less v u = true) w ->
  StronglySorted (fun u v => less v u = true) (rest_frame w z_host).
Proof.
  induction 1 as [|u a Hs IH Hall]; [constructor|].
  unfold rest_frame, divide_s in *; cbn [map]; constructor; [exact IH|].
  rewrite Forall_map; eapply Forall_impl; [|exact Hall].
  intros t Ht; apply less_rest_frame; exact Ht.
Qed.

Lemma less_asymmetric u v : less v u = true -> less u v = false.
Proof.
  destruct u as [a| | |], v as [b| | |]; simpl; try congruence.
  rewrite <- (Qcompare_antisym a b); destruct (a ?= b); simpl; congruence.
Qed.

Lemma CubicSpline_not_increasing xs ys i a b :
  length xs = length ys ->
  nth_error xs i = Some a -> nth_error xs (S i) = Some b -> ~ a < b ->
  CubicSpline (map Fin xs) (map Fin ys) = Raise (ValueError NotIncreasing).
Proof.
  intros Hl Ha Hb Hab; unfold CubicSpline; rewrite !length_map.
  assert (S i < length xs)%nat by (apply nth_error_Some; congruence).
  destruct (Nat.ltb_spec (length xs) 2); [lia|].
  rewrite Hl, Nat.eqb_refl; cbn [negb]; rewrite !as_finite_map_Fin.
  destruct (strictly_increasing xs) eqn:Hs; [|reflexivity].
  exfalso; apply Hab; eapply strictly_increasing_adjacent; eauto.
Qed.

(** X13.  A spectrum stored with descending wavelengths is always refused:
    with arrays of one length, finite flux and at least two samples in the
    continuum windows, the spline constructor raises its [ValueError] for
    an [x] that is not strictly increasing. *)
Theorem descending_spectrum_raises (w f : ndarray) :
  descending w ->
  length w = length f ->
  (2 <= length (continuum_x w))%nat ->
  Forall (fun v => isfinite v = true) (continuum_y w f) ->
  Notebook.equivalent_width w f = Raise (ValueError NotIncreasing).
Proof.
  intros Hd Hl Hn Hy.
  assert (Hsorted : StronglySorted (fun u v => less v u = true)
                      (continuum_x w)).
  { apply StronglySorted_compress_desc, StronglySorted_rest_frame_desc,
      descending_StronglySorted; exact Hd. }
  destruct (selected_continuum_as_finite (rest_frame w z_host)) as [xs Hxs].
  fold (continuum_x w) in Hxs.
  destruct (as_finite_total _ Hy) as [ys Hys]; apply as_finite_Some in Hys.
  assert (Hlen : length xs = length ys).
  { rewrite <- (length_map Fin xs), <- (length_map Fin ys), <- Hxs, <- Hys.
    apply compress_same_length; rewrite rest_frame_length; exact Hl. }
  rewrite (equivalent_width_ok w f Hl); cbv zeta.
  fold (continuum_x w) (continuum_y w f).
  rewrite Hxs in Hsorted, Hn |- *; rewrite Hys, length_map in *.
  destruct xs as [|a [|b xs]]; try (simpl in Hn; lia).
  rewrite (CubicSpline_not_increasing (a :: b :: xs) ys 0 a b Hlen
             eq_refl eq_refl); [reflexivity|].
  cbn [map] in Hsorted.
  inversion Hsorted as [|? ? _ Hall]; subst.
  inversion Hall as [|? ? Hba _]; subst.
  apply less_Fin in Hba; lra.
Qed.

Lemma descending_spectrum_raises_witness :
  Notebook.equivalent_width (map observed [4880; 4862; 4860; 4820; 4810])
    (map Fin [1; 2; 2; 1; 1]) = Raise (ValueError NotIncreasing).
Proof.
  apply (descending_spectrum_raises
           (map observed [4880; 4862; 4860; 4820; 4810])
           (map Fin [1; 2; 2; 1; 1])).
  - intros i u v Hu Hv.
    repeat (destruct i as [|i];
            [vm_compute in Hu, Hv;
             injection Hu as <-; injection Hv as <-; reflexivity|]).
    vm_compute in Hv; destruct i; discriminate.
  - reflexivity.
  - vm_compute; lia.
  - vm_compute; repeat constructor.
Defined.

(** * The line-fitting notebook *)

(** ** The residual function *)

(** X15.  [line_fit] raises exactly when its argument has fewer than two
    entries, with the [IndexError] of [p[0]] or [p[1]]; otherwise, the data
    arrays having one length, it returns one residual per data point. *)
Theorem line_fit_bounds (xs ys p : ndarray) :
  ((length p < 2)%nat <-> FitDemo.line_fit xs ys p = Raise IndexError) /\
  ((2 <= length p)%nat -> length xs = length ys ->
   exists res, FitDemo.line_fit xs ys p = Value res /\
               length res = length xs).
Proof.
  unfold FitDemo.line_fit, FitDemo.item.
  destruct p as [|p0 [|p1 p]]; cbn [nth_error bind length].
  - split; [split; [reflexivity|intros _; lia]|intros H; lia].
  - split; [split; [reflexivity|intros _; lia]|intros H; lia].
  - split; [split; [lia|discriminate]|].
    intros _ Hl; eexists; split; [reflexivity|].
    unfold subtract_a, FitDemo.add_s, FitDemo.multiply_s.
    rewrite zip_with_length; rewrite ?length_map; auto.
Qed.

Lemma line_fit_bounds_witness :
  (lt (length [Fin 1; Fin 1]) 2 <->
   FitDemo.line_fit FitDemo.x (FitDemo.y (repeat (Fin 0) 20)) [Fin 1; Fin 1]
   = Raise IndexError) /\
  (le 2 (length [Fin 1; Fin 1]) ->
   length FitDemo.x = length (FitDemo.y (repeat (Fin 0) 20)) ->
   exists res,
     FitDemo.line_fit FitDemo.x (FitDemo.y (repeat (Fin 0) 20))
       [Fin 1; Fin 1] = Value res /\
     length res = length FitDemo.x).
Proof.
  apply (line_fit_bounds FitDemo.x (FitDemo.y (repeat (Fin 0) 20))
           [Fin 1; Fin 1]).
Defined.

(** * The labelled lines *)

(** The markers of the notebook's table: every one is drawn inside the
    plotted range [3000, 7000], and
    of the eight labelled lines only H-beta falls in the windows of the
    measurement: brought back to the rest frame, its marker is the only
    one selected by [iwave], it is inside the line window and outside both
    continuum windows. *)
Theorem hbeta_is_the_measured_line :
  let positions := map fst (Labels.markers z_host) in
  let rest := rest_frame positions z_host in
  forallb (fun v => less (Fin (fst Labels.xlim)) v
                    && less v (Fin (snd Labels.xlim))) positions = true /\
  map snd (compress (mask_iwave rest) (Labels.markers z_host))
  = [Labels.hbeta] /\
  map snd (compress (mask_lineonly rest) (Labels.markers z_host))
  = [Labels.hbeta] /\
  compress (mask_noline rest) (Labels.markers z_host) = [].
Proof. vm_compute; repeat split. Qed.
